(** * Menu items, buttons and the menu bar of the fyne widget layer

    A shallow embedding of [widget/menu_item.go] (the menu item widget and
    its renderer), of the button widget that follows it in the same source
    file, and of the menu bar actions of the gl driver, together with the
    properties of submenu activation, submenu placement, button colours,
    taps and the minimum-size cache.

    Widgets are Go pointers that are shared and mutated in place: they live
    in a store indexed by address.  Calls that leave the widget layer (user
    callbacks, redraw requests, dismissal) are appended to a trace. *)

From Stdlib Require Import ZArith Lia String List.
From stdpp Require Import base option list functions.
Import ListNotations.

Local Open Scope Z_scope.

(** ** Go's [int] (64 bits, two's complement, silent wrap-around) *)

Module int.
Definition min_int : Z := - 2 ^ 63.
Definition max_int : Z := 2 ^ 63 - 1.

(** The values of the type. *)
Definition valid (z : Z) : Prop := min_int <= z <= max_int.

Definition wrap (z : Z) : Z := (z + 2 ^ 63) mod 2 ^ 64 - 2 ^ 63.

Definition add (a b : Z) : Z := wrap (a + b).
Definition sub (a b : Z) : Z := wrap (a - b).
Definition neg (a : Z) : Z := wrap (- a).
Definition mul (a b : Z) : Z := wrap (a * b).
(** Go's [/] truncates towards zero. *)
Definition div (a b : Z) : Z := wrap (Z.quot a b).

(** Values far enough from the ends of the range that the sums and
    differences of a few of them do not wrap. *)
Definition small (z : Z) : Prop := - 2 ^ 60 <= z <= 2 ^ 60.
End int.

Infix ".+" := int.add (at level 50, left associativity).
Infix ".-" := int.sub (at level 50, left associativity).
Infix ".*" := int.mul (at level 40, left associativity).
Infix "./" := int.div (at level 40, left associativity).

(** ** Geometry *)

Module fyne.

Record Position := NewPos { X : Z; Y : Z }.
Record Size := NewSize { Width : Z; Height : Z }.

(** Modelled from the spec: the geometry primitives of the toolkit
    ([geometry.go] is not part of the sources at hand); "position, size
    with add/subtract/max operations", componentwise on [int]. *)
Definition PosAdd (p1 p2 : Position) : Position :=
  NewPos (X p1 .+ X p2) (Y p1 .+ Y p2).

(** Modelled from the spec: componentwise sum of two sizes. *)
Definition SizeAdd (s1 s2 : Size) : Size :=
  NewSize (Width s1 .+ Width s2) (Height s1 .+ Height s2).

(** Modelled from the spec: a size is zero when both components are;
    "submenu starts at zero size until first activated". *)
Definition IsZero (s : Size) : bool :=
  (Width s =? 0) && (Height s =? 0).

(** The data of a menu: [fyne.Menu] and [fyne.MenuItem].  An action is a
    user callback, identified by a number. *)
Inductive MenuItem :=
  mkMenuItem (Label : string) (Action : option nat) (ChildMenu : option Menu)
with Menu :=
  mkMenu (MLabel : string) (Items : list MenuItem).

Definition Label (it : MenuItem) : string :=
  let 'mkMenuItem l _ _ := it in l.
Definition Action (it : MenuItem) : option nat :=
  let 'mkMenuItem _ a _ := it in a.
Definition ChildMenu (it : MenuItem) : option Menu :=
  let 'mkMenuItem _ _ c := it in c.
Definition MLabel (m : Menu) : string := let 'mkMenu l _ := m in l.
Definition Items (m : Menu) : list MenuItem := let 'mkMenu _ l := m in l.

(** [fyne.NewMenu(label, items...)] *)
Definition NewMenu (label : string) (items : list MenuItem) : Menu :=
  mkMenu label items.

End fyne.

(** ** Theme, device and driver *)

Inductive Color := NRGBA (r g b a : Z).

Definition Transparent : Color := NRGBA 0 0 0 0.

Global Instance Color_eq_dec : EqDecision Color.
Proof. solve_decision. Defined.

(** What the [theme] package answers at the moment of a call. *)
Record Theme := mkTheme {
  Padding : Z;
  TextSize : Z;
  IconInlineSize : Z;
  TextColor : Color;
  ButtonColor : Color;
  DisabledButtonColor : Color;
  HoverColor : Color;
  PrimaryColor : Color
}.

(** Addresses of widgets. *)
Definition loc := nat.

(** The process-wide services the widgets query: the current theme, the
    current device, the driver of the current application, and the two
    measurements the widgets ask other packages for. *)
Record Env := mkEnv {
  theme : Theme;
  (** [fyne.CurrentDevice().IsMobile()] *)
  IsMobile : bool;
  (** [Driver().CanvasForObject(i)], as the size of that canvas; [None]
      is the nil canvas. *)
  CanvasForObject : loc -> option fyne.Size;
  (** [Driver().AbsolutePositionForObject(i)] *)
  AbsolutePositionForObject : loc -> fyne.Position;
  (** [Menu.MinSize()] of the menu at an address. *)
  MenuMinSize : loc -> fyne.Size;
  (** [canvas.Text.MinSize()] for a text and a text size. *)
  RenderedTextSize : string -> Z -> fyne.Size
}.

(** ** Widgets in the store *)

(** Modelled from the spec: the base widget ([internal/widget.Base]) holds
    the size, the position and the hidden flag of a widget and supplies
    "show/hide/resize/refresh semantics". *)
Record Base := mkBase {
  Base_size : fyne.Size;
  Base_pos : fyne.Position;
  Hidden : bool
}.

Definition zeroBase : Base :=
  mkBase (fyne.NewSize 0 0) (fyne.NewPos 0 0) false.

(** Modelled from the spec: [Menu] of [widget/menu.go], "currently active
    child reference (weak, points to at most one MenuItem's child submenu),
    dismiss callback".  The dismiss callback of a submenu is the [Dismiss]
    method of another menu. *)
Record Menu := mkMenu {
  mBase : Base;
  DismissAction : option loc;
  activeChild : option loc
}.

Record menuItem := mkMenuItem {
  iBase : Base;
  Item : fyne.MenuItem;
  Parent : loc;
  child : option loc;
  hovered : bool
}.

(** Calls that leave the widgets. *)
Inductive Call :=
| CallAction (f : nat)          (* i.Item.Action() *)
| CallDismiss (m : loc)         (* m.Dismiss() *)
| CallRefresh (i : loc).        (* widget.RefreshWidget(i) *)

Record Store := mkStore {
  menus : loc -> Menu;
  items : loc -> menuItem;
  trace : list Call
}.

Definition set_menu (m : loc) (f : Menu -> Menu) (s : Store) : Store :=
  mkStore (<[m := f (menus s m)]> (menus s)) (items s) (trace s).

Definition set_item (i : loc) (f : menuItem -> menuItem) (s : Store) : Store :=
  mkStore (menus s) (<[i := f (items s i)]> (items s)) (trace s).

Definition log (c : Call) (s : Store) : Store :=
  mkStore (menus s) (items s) (trace s ++ [c]).

Definition with_mBase (f : Base -> Base) (m : Menu) : Menu :=
  mkMenu (f (mBase m)) (DismissAction m) (activeChild m).
Definition with_activeChild (a : option loc) (m : Menu) : Menu :=
  mkMenu (mBase m) (DismissAction m) a.
Definition with_DismissAction (d : option loc) (m : Menu) : Menu :=
  mkMenu (mBase m) d (activeChild m).
Definition with_iBase (f : Base -> Base) (it : menuItem) : menuItem :=
  mkMenuItem (f (iBase it)) (Item it) (Parent it) (child it) (hovered it).
Definition with_child (c : option loc) (it : menuItem) : menuItem :=
  mkMenuItem (iBase it) (Item it) (Parent it) c (hovered it).
Definition with_hovered (h : bool) (it : menuItem) : menuItem :=
  mkMenuItem (iBase it) (Item it) (Parent it) (child it) h.

Definition with_size (sz : fyne.Size) (b : Base) : Base :=
  mkBase sz (Base_pos b) (Hidden b).
Definition with_pos (p : fyne.Position) (b : Base) : Base :=
  mkBase (Base_size b) p (Hidden b).
Definition with_Hidden (h : bool) (b : Base) : Base :=
  mkBase (Base_size b) (Base_pos b) h.

(** *** Methods of [Menu] (the base widget part) *)

Module Menu.
Definition Size (m : loc) (s : Store) : fyne.Size := Base_size (mBase (menus s m)).
Definition Position (m : loc) (s : Store) : fyne.Position := Base_pos (mBase (menus s m)).
Definition Visible (m : loc) (s : Store) : bool := negb (Hidden (mBase (menus s m))).

Definition Resize (m : loc) (sz : fyne.Size) (s : Store) : Store :=
  set_menu m (with_mBase (with_size sz)) s.
Definition Move (m : loc) (p : fyne.Position) (s : Store) : Store :=
  set_menu m (with_mBase (with_pos p)) s.
Definition Show (m : loc) (s : Store) : Store :=
  set_menu m (with_mBase (with_Hidden false)) s.
Definition Hide (m : loc) (s : Store) : Store :=
  set_menu m (with_mBase (with_Hidden true)) s.

(** Modelled from the spec: [Menu.DeactivateChild] of [widget/menu.go].
    "any sibling's active submenu is deactivated first": the active child
    submenu, if there is one, is hidden and the reference to it cleared. *)
Definition DeactivateChild (m : loc) (s : Store) : Store :=
  match activeChild (menus s m) with
  | Some a => set_menu m (with_activeChild None) (Hide a s)
  | None => s
  end.

(** Modelled from the spec: [NewMenu] of [widget/menu.go] makes the widget
    of a menu, at the address [fresh]: shown, of no size yet ("submenu
    starts at zero size until first activated"), without dismiss callback
    and without active child. *)
Definition NewMenu (fresh : loc) (s : Store) : Store :=
  set_menu fresh (fun _ => mkMenu zeroBase None None) s.

(** Modelled from the spec: [Menu.Dismiss] of [widget/menu.go], "dismiss
    the entire menu chain".  Its body is not part of the sources at hand;
    the request is recorded in the trace. *)
Definition Dismiss (m : loc) (s : Store) : Store := log (CallDismiss m) s.
End Menu.

(** *** [menuItem] *)

Module menuItem.

Definition Size (i : loc) (s : Store) : fyne.Size := Base_size (iBase (items s i)).

(** [Refresh]: a redraw request. *)
Definition Refresh (i : loc) (s : Store) : Store := log (CallRefresh i) s.

(** [updateChildPosition].  [None] is the nil dereference of [i.child]
    (both callers test [i.child != nil] first). *)
Definition updateChildPosition (e : Env) (i : loc) (s : Store) : option Store :=
  let it := items s i in
  match child it with
  | None => None
  | Some ch =>
      let itemSize := Size i s in
      let cp := fyne.NewPos (fyne.Width itemSize) (int.neg (Padding (theme e))) in
      let cp :=
        match CanvasForObject e i with
        | Some cSize =>
            let absPos := AbsolutePositionForObject e i in
            let childSize := Menu.Size ch s in
            let cp :=
              if fyne.X absPos .+ fyne.Width itemSize .+ fyne.Width childSize
                 >? fyne.Width cSize
              then
                if fyne.X absPos .- fyne.Width childSize >=? 0
                then fyne.NewPos (int.neg (fyne.Width childSize)) (fyne.Y cp)
                else fyne.NewPos
                       (fyne.Width cSize .- fyne.X absPos .- fyne.Width childSize)
                       (fyne.Y cp)
              else cp in
            if fyne.Y absPos .+ fyne.Height childSize .- Padding (theme e)
               >? fyne.Height cSize
            then fyne.NewPos (fyne.X cp)
                   (fyne.Height cSize .- fyne.Y absPos .- fyne.Height childSize)
            else cp
        | None => cp
        end in
      Some (Menu.Move ch cp s)
  end.

(** [activateChild] *)
Definition activateChild (e : Env) (i : loc) (s : Store) : option Store :=
  let it := items s i in
  let s := match child it with
           | Some ch => Menu.DeactivateChild ch s
           | None => s
           end in
  if decide (activeChild (menus s (Parent it)) = child it) then Some s
  else
    let s := Menu.DeactivateChild (Parent it) s in
    match child it with
    | Some ch =>
        s ← (if fyne.IsZero (Menu.Size ch s)
             then updateChildPosition e i (Menu.Resize ch (MenuMinSize e ch) s)
             else Some s);
        Some (Menu.Show ch (set_menu (Parent it) (with_activeChild (Some ch)) s))
    | None => Some s
    end.

(** [MouseIn] *)
Definition MouseIn (e : Env) (i : loc) (s : Store) : option Store :=
  s ← activateChild e i (set_item i (with_hovered true) s);
  Some (Refresh i s).

(** [MouseMoved] does nothing. *)
Definition MouseMoved (e : Env) (i : loc) (s : Store) : option Store := Some s.

(** [MouseOut] *)
Definition MouseOut (i : loc) (s : Store) : Store :=
  Refresh i (set_item i (with_hovered false) s).

(** [Resize]; resizing the base widget stores the new size. *)
Definition Resize (e : Env) (i : loc) (sz : fyne.Size) (s : Store) : option Store :=
  let s := set_item i (with_iBase (with_size sz)) s in
  match child (items s i) with
  | Some _ => updateChildPosition e i s
  | None => Some s
  end.

(** [Tapped] *)
Definition Tapped (e : Env) (i : loc) (s : Store) : option Store :=
  let it := items s i in
  match fyne.Action (Item it) with
  | None =>
      if IsMobile e
      then s ← activateChild e i s; Some (Refresh i s)
      else Some s
  | Some f =>
      Some (Menu.Dismiss (Parent it) (log (CallAction f) s))
  end.

End menuItem.

(** ** The renderer of a menu item *)

(** Modelled from the spec: the drawable objects of the "rendering tree
    abstraction", a text with its text size and colour and an image, each
    with a size and a position. *)
Record Text := mkText {
  Text_Text : string;
  Text_TextSize : Z;
  Text_Color : Color;
  Text_size : fyne.Size;
  Text_pos : fyne.Position
}.

Record Image := mkImage {
  Image_size : fyne.Size;
  Image_pos : fyne.Position
}.

Inductive CanvasObject :=
| ObjText
| ObjIcon
| ObjMenu (m : loc).

(** A call to the text measurement of the canvas, [r.text.MinSize()]. *)
Inductive Measure := MeasureText (txt : string) (textSize : Z).

Module menuItemRenderer.

Record renderer := mkRenderer {
  objects : list CanvasObject;
  i : loc;
  icon : option Image;
  lastThemePadding : Z;
  minSize : fyne.Size;
  text : Text
}.

Definition with_minSize (sz : fyne.Size) (r : renderer) : renderer :=
  mkRenderer (objects r) (i r) (icon r) (lastThemePadding r) sz (text r).

(** Modelled from the spec: [canvas.NewText]; a new text has the text size
    of the theme in force ([Layout] sets it again) and no size yet. *)
Definition NewText (e : Env) (label : string) (c : Color) : Text :=
  mkText label (TextSize (theme e)) c (fyne.NewSize 0 0) (fyne.NewPos 0 0).

(** Modelled from the spec: [canvas.NewImageFromResource]; a new image
    has no size yet. *)
Definition NewImageFromResource : Image :=
  mkImage (fyne.NewSize 0 0) (fyne.NewPos 0 0).

(** [canvas.Text.MinSize]: the size the driver measures for the text at
    its text size. *)
Definition TextMinSize (e : Env) (t : Text) : fyne.Size :=
  RenderedTextSize e (Text_Text t) (Text_TextSize t).

(** [menuItem.CreateRenderer].  [fresh] is the address at which
    [NewMenu] allocates the submenu widget; the new submenu is hidden and
    its dismiss callback is the [Dismiss] method of the parent.  The
    fields that the literal leaves out, [lastThemePadding] and [minSize],
    are zero. *)
Definition CreateRenderer (e : Env) (it : loc) (fresh : loc) (s : Store)
  : renderer * Store :=
  let item := items s it in
  let text := NewText e (fyne.Label (Item item)) (TextColor (theme e)) in
  match fyne.ChildMenu (Item item) with
  | Some _ =>
      let s :=
        match child item with
        | None =>
            let s := set_menu fresh (fun _ => mkMenu zeroBase None None) s in
            let s := Menu.Hide fresh s in
            let s := set_menu fresh (with_DismissAction (Some (Parent item))) s in
            set_item it (with_child (Some fresh)) s
        | Some _ => s
        end in
      let objs :=
        match child (items s it) with
        | Some ch => [ObjText; ObjIcon; ObjMenu ch]
        | None => [ObjText; ObjIcon]
        end in
      (mkRenderer objs it (Some NewImageFromResource) 0 (fyne.NewSize 0 0) text, s)
  | None =>
      (mkRenderer [ObjText] it None 0 (fyne.NewSize 0 0) text, s)
  end.

(** [BackgroundColor] *)
Definition BackgroundColor (e : Env) (r : renderer) (s : Store) : Color :=
  let item := items s (i r) in
  if negb (IsMobile e) &&
     (hovered item ||
      match child item with
      | Some ch => Menu.Visible ch s
      | None => false
      end)
  then HoverColor (theme e)
  else Transparent.

(** [itemPadding] *)
Definition itemPadding (e : Env) : fyne.Size :=
  fyne.NewSize (Padding (theme e) .* 4) (Padding (theme e) .* 2).

(** [Layout] *)
Definition Layout (e : Env) (r : renderer) (size : fyne.Size)
  : renderer * list Measure :=
  let padding := itemPadding e in
  let t := text r in
  let t := mkText (Text_Text t) (TextSize (theme e)) (TextColor (theme e))
             (Text_size t) (Text_pos t) in
  let t := mkText (Text_Text t) (Text_TextSize t) (Text_Color t)
             (TextMinSize e t)
             (fyne.NewPos (fyne.Width padding ./ 2) (fyne.Height padding ./ 2)) in
  let ic :=
    match icon r with
    | Some _ =>
        Some (mkImage
                (fyne.NewSize (IconInlineSize (theme e)) (IconInlineSize (theme e)))
                (fyne.NewPos
                   (fyne.Width size .- IconInlineSize (theme e))
                   ((fyne.Height size .- IconInlineSize (theme e)) ./ 2)))
    | None => None
    end in
  (mkRenderer (objects r) (i r) ic (lastThemePadding r) (minSize r) t,
   [MeasureText (Text_Text t) (Text_TextSize t)]).

(** [minSizeUnchanged] *)
Definition minSizeUnchanged (e : Env) (r : renderer) : bool :=
  negb (fyne.IsZero (minSize r)) &&
  (Text_TextSize (text r) =? TextSize (theme e)) &&
  match icon r with
  | None => true
  | Some ic => fyne.Width (Image_size ic) =? IconInlineSize (theme e)
  end &&
  (lastThemePadding r =? Padding (theme e)).

(** [MinSize].  The third component lists the measurements of the text
    that the call made: none when the stored size is returned. *)
Definition MinSize (e : Env) (r : renderer)
  : renderer * fyne.Size * list Measure :=
  if minSizeUnchanged e r then (r, minSize r, [])
  else
    let sz := fyne.SizeAdd (TextMinSize e (text r)) (itemPadding e) in
    let sz :=
      match icon r with
      | Some _ => fyne.SizeAdd sz (fyne.NewSize (IconInlineSize (theme e)) 0)
      | None => sz
      end in
    let r := with_minSize sz r in
    (r, minSize r, [MeasureText (Text_Text (text r)) (Text_TextSize (text r))]).

End menuItemRenderer.

(** ** The menu bar: one action per top-level menu *)

Record menuBarAction := mkMenuBarAction {
  Label : string;
  menu : fyne.Menu;
  canvas : loc
}.

(** Modelled from the spec: [widget.PopUpMenu], "a popup-menu surface
    capable of displaying a floating widget at an absolute position": the
    menu it shows, the canvas it is on and where it is. *)
Record PopUpMenu := mkPopUpMenu {
  PopUp_menu : fyne.Menu;
  PopUp_canvas : loc;
  PopUp_pos : fyne.Position
}.

(** Modelled from the spec: [widget.NewPopUpMenu] shows the menu on the
    canvas, at the origin until it is moved. *)
Definition NewPopUpMenu (m : fyne.Menu) (c : loc) : PopUpMenu :=
  mkPopUpMenu m c (fyne.NewPos 0 0).

(** Modelled from the spec: moving the popup anchors it at the position. *)
Definition PopUpMove (p : PopUpMenu) (pos : fyne.Position) : PopUpMenu :=
  mkPopUpMenu (PopUp_menu p) (PopUp_canvas p) pos.

(** [showMenu]; the result is the popup left on the canvas. *)
Definition showMenu (m : fyne.Menu) (pos : fyne.Position) (c : loc) : PopUpMenu :=
  let pop := NewPopUpMenu (fyne.NewMenu "" (fyne.Items m)) c in
  PopUpMove pop pos.

(** ** Buttons *)

Inductive ButtonAlign := ButtonAlignCenter | ButtonAlignLeading | ButtonAlignTrailing.
Inductive ButtonIconPlacement := ButtonIconLeadingText | ButtonIconTrailingText.
Inductive ButtonImportance := MediumImportance | HighImportance | LowImportance.

Global Instance ButtonImportance_eq_dec : EqDecision ButtonImportance.
Proof. solve_decision. Defined.

Inductive AnimationCurve := AnimationEaseOut.

(** The tap animation: its curve ([None] until one is set).  The tick
    function, which draws the ripple, is left out. *)
Record Animation := mkAnimation { Curve : option AnimationCurve }.

(** A function value stored in [OnTapped]: a callback of the program,
    identified by a number, or the closure that [ToolbarObject] builds. *)
Inductive Callback :=
| UserFunc (f : nat)
| menuBarTapped (m : menuBarAction).

(** What a tap makes happen outside the button. *)
Inductive Effect :=
| AnimStop
| AnimStart
| Refresh
| Called (f : nat)
| PoppedUp (p : PopUpMenu).

Module Button.

Record Button := mkButton {
  base : Base;
  disabled : bool;
  Text : string;
  Icon : option nat;
  Importance : ButtonImportance;
  Alignment : ButtonAlign;
  IconPlacement : ButtonIconPlacement;
  OnTapped : option Callback;
  hovered : bool;
  tapAnim : option Animation;
  tapBG : option Color
}.

Definition with_hovered (h : bool) (b : Button) : Button :=
  mkButton (base b) (disabled b) (Text b) (Icon b) (Importance b) (Alignment b)
    (IconPlacement b) (OnTapped b) h (tapAnim b) (tapBG b).
Definition with_tapAnim (a : option Animation) (b : Button) : Button :=
  mkButton (base b) (disabled b) (Text b) (Icon b) (Importance b) (Alignment b)
    (IconPlacement b) (OnTapped b) (hovered b) a (tapBG b).
Definition with_OnTapped (f : option Callback) (b : Button) : Button :=
  mkButton (base b) (disabled b) (Text b) (Icon b) (Importance b) (Alignment b)
    (IconPlacement b) f (hovered b) (tapAnim b) (tapBG b).
Definition with_base (f : Base -> Base) (b : Button) : Button :=
  mkButton (f (base b)) (disabled b) (Text b) (Icon b) (Importance b) (Alignment b)
    (IconPlacement b) (OnTapped b) (hovered b) (tapAnim b) (tapBG b).

Definition Disabled (b : Button) : bool := disabled b.
Definition Position (b : Button) : fyne.Position := Base_pos (base b).
Definition Size (b : Button) : fyne.Size := Base_size (base b).
Definition Move (p : fyne.Position) (b : Button) : Button := with_base (with_pos p) b.
Definition Resize (sz : fyne.Size) (b : Button) : Button := with_base (with_size sz) b.

(** [NewButton] *)
Definition NewButton (label : string) (tapped : option Callback) : Button :=
  mkButton zeroBase false label None MediumImportance ButtonAlignCenter
    ButtonIconLeadingText tapped false None None.

(** [MouseIn], [MouseOut] *)
Definition MouseIn (b : Button) : Button * list Effect :=
  (with_hovered true b, [Refresh]).
Definition MouseOut (b : Button) : Button * list Effect :=
  (with_hovered false b, [Refresh]).

(** Calling the function stored in [OnTapped].  The closure of a menu
    bar action reads the position and the size of its button when it is
    called. *)
Definition call (f : Callback) (button : Button) : list Effect :=
  match f with
  | UserFunc n => [Called n]
  | menuBarTapped m =>
      let pos := fyne.PosAdd (Position button)
                   (fyne.NewPos 0 (fyne.Height (Size button))) in
      [PoppedUp (showMenu (menu m) pos (canvas m))]
  end.

(** [tapAnimation] *)
Definition tapAnimation (b : Button) : Button * list Effect :=
  match tapBG b with
  | None => (b, [])
  | Some _ =>
      match tapAnim b with
      | None =>
          (with_tapAnim (Some (mkAnimation (Some AnimationEaseOut))) b, [AnimStart])
      | Some _ => (b, [AnimStop; AnimStart])
      end
  end.

(** [Tapped] *)
Definition Tapped (b : Button) : Button * list Effect :=
  if Disabled b then (b, [])
  else
    let '(b, fx) := tapAnimation b in
    (b, fx ++ [Refresh] ++
        match OnTapped b with
        | Some f => call f b
        | None => []
        end).

(** [buttonRenderer.buttonColor], on the button of the renderer. *)
Definition buttonColor (e : Env) (b : Button) : Color :=
  if Disabled b then DisabledButtonColor (theme e)
  else if decide (Importance b = HighImportance) then PrimaryColor (theme e)
  else if hovered b then HoverColor (theme e)
  else ButtonColor (theme e).

(** [buttonRenderer.padding] *)
Definition padding (e : Env) (b : Button) : fyne.Size :=
  if decide (Importance b = LowImportance)
  then fyne.NewSize (Padding (theme e) .* 2) (Padding (theme e) .* 2)
  else if String.eqb (Text b) ""
  then fyne.NewSize (Padding (theme e) .* 4) (Padding (theme e) .* 4)
  else fyne.NewSize (Padding (theme e) .* 6) (Padding (theme e) .* 4).

End Button.

(** [menuBarAction.ToolbarObject]: a button labelled like the menu whose
    tap handler shows the menu below the button. *)
Definition ToolbarObject (m : menuBarAction) : Button.Button :=
  let button := Button.NewButton (Label m) None in
  Button.with_OnTapped (Some (menuBarTapped m)) button.

(** ** Sequences of events on menu items *)

Inductive Event :=
| EvMouseIn (i : loc)
| EvMouseOut (i : loc)
| EvTapped (i : loc).

Definition handle (e : Env) (ev : Event) (s : Store) : option Store :=
  match ev with
  | EvMouseIn i => menuItem.MouseIn e i s
  | EvMouseOut i => Some (menuItem.MouseOut i s)
  | EvTapped i => menuItem.Tapped e i s
  end.

Fixpoint run (e : Env) (evs : list Event) (s : Store) : option Store :=
  match evs with
  | [] => Some s
  | ev :: evs => s ← handle e ev s; run e evs s
  end.


(** ** Submenus of a menu *)

(** [c] is the submenu of an item of the menu [m]. *)
Definition child_of (m : loc) (s : Store) (c : loc) : Prop :=
  exists i, Parent (items s i) = m /\ child (items s i) = Some c.

(** At most one submenu of the items of [m] is visible. *)
Definition at_most_one_visible (m : loc) (s : Store) : Prop :=
  forall c1 c2,
    child_of m s c1 -> child_of m s c2 ->
    Menu.Visible c1 s = true -> Menu.Visible c2 s = true -> c1 = c2.

(** A visible submenu of an item of [m] is the active child of [m]. *)
Definition visible_is_active (m : loc) (s : Store) : Prop :=
  forall c, child_of m s c -> Menu.Visible c s = true ->
            activeChild (menus s m) = Some c.

(** The submenus of the items of [m] are hidden, as [CreateRenderer]
    leaves them. *)
Definition children_hidden (m : loc) (s : Store) : Prop :=
  forall c, child_of m s c -> Menu.Visible c s = false.

(** ** Sample data *)

Definition sampleTheme : Theme :=
  mkTheme 4 14 20 (NRGBA 255 255 255 255) (NRGBA 33 33 33 255)
    (NRGBA 49 49 49 255) (NRGBA 66 66 66 255) (NRGBA 26 35 126 255).

(** A store in which nothing has been created yet. *)
Definition emptyStore : Store :=
  mkStore (fun _ => mkMenu zeroBase None None)
          (fun _ => mkMenuItem zeroBase (fyne.mkMenuItem "" None None) 0%nat None false)
          [].

(** A desktop with a canvas of 100 by 50; every item sits at (0, 40). *)
Definition desktopEnv : Env :=
  mkEnv sampleTheme false
    (fun _ => Some (fyne.NewSize 100 50))
    (fun _ => fyne.NewPos 0 40)
    (fun _ => fyne.NewSize 20 30)
    (fun _ _ => fyne.NewSize 50 18).

(** The same on a touch device. *)
Definition mobileEnv : Env :=
  mkEnv sampleTheme true
    (CanvasForObject desktopEnv) (AbsolutePositionForObject desktopEnv)
    (MenuMinSize desktopEnv) (RenderedTextSize desktopEnv).

(** Menu 0 has item 1 with the submenu 2, item 3 with the submenu 4 and
    item 5 with an action and no submenu; both submenus are hidden and of
    size 20 by 30, the items are 10 wide. *)
Definition twoSubmenus : Store :=
  let sub := mkMenu (mkBase (fyne.NewSize 20 30) (fyne.NewPos 0 0) true) (Some 0%nat) None in
  let it (c : loc) :=
    mkMenuItem (mkBase (fyne.NewSize 10 26) (fyne.NewPos 0 0) false)
      (fyne.mkMenuItem "more" None (Some (fyne.mkMenu "" []))) 0%nat (Some c) false in
  let leaf :=
    mkMenuItem (mkBase (fyne.NewSize 10 26) (fyne.NewPos 0 0) false)
      (fyne.mkMenuItem "quit" (Some 7%nat) None) 0%nat None false in
  mkStore (<[2%nat := sub]> (<[4%nat := sub]> (menus emptyStore)))
          (<[1%nat := it 2%nat]> (<[3%nat := it 4%nat]> (<[5%nat := leaf]> (items emptyStore))))
          [].

(** What one looks at in a store of that menu: the active child of menu 0
    and whether the submenus 2 and 4 are visible. *)
Definition observe (s : Store) : option loc * bool * bool :=
  (activeChild (menus s 0%nat), Menu.Visible 2%nat s, Menu.Visible 4%nat s).

(** The same menu with the submenu 2 of item 1 open. *)
Definition submenuOpen : Store :=
  Menu.Show 2%nat (set_menu 0%nat (with_activeChild (Some 2%nat)) twoSubmenus).

(** ** The colour rules of a button, after the specification *)

(** "Color resolution precedence (highest first): disabled, high-importance
    (accent color), hovered (hover color), default (base button color)." *)
Inductive ColorRule := RuleDisabled | RuleHighImportance | RuleHovered | RuleDefault.

(** A rule applies when its condition holds and no rule before it does. *)
Definition applies (r : ColorRule) (b : Button.Button) : Prop :=
  match r with
  | RuleDisabled => Button.Disabled b = true
  | RuleHighImportance =>
      Button.Disabled b = false /\ Button.Importance b = HighImportance
  | RuleHovered =>
      Button.Disabled b = false /\ Button.Importance b <> HighImportance /\
      Button.hovered b = true
  | RuleDefault =>
      Button.Disabled b = false /\ Button.Importance b <> HighImportance /\
      Button.hovered b = false
  end.

Definition ruleColor (t : Theme) (r : ColorRule) : Color :=
  match r with
  | RuleDisabled => DisabledButtonColor t
  | RuleHighImportance => PrimaryColor t
  | RuleHovered => HoverColor t
  | RuleDefault => ButtonColor t
  end.

(** ** More sample data *)

(** A rendered button with a tap handler and a tap animation, hovered,
    of high importance, and disabled. *)
Definition disabledButton : Button.Button :=
  Button.mkButton zeroBase true "OK" None HighImportance ButtonAlignCenter
    ButtonIconLeadingText (Some (UserFunc 1%nat)) true
    (Some (mkAnimation (Some AnimationEaseOut))) (Some Transparent).

(** The same button, enabled. *)
Definition enabledButton : Button.Button :=
  Button.mkButton zeroBase false "OK" None HighImportance ButtonAlignCenter
    ButtonIconLeadingText (Some (UserFunc 1%nat)) true
    (Some (mkAnimation (Some AnimationEaseOut))) (Some Transparent).

(** An enabled button of medium importance under the pointer. *)
Definition hoveredButton : Button.Button :=
  Button.with_hovered true (Button.NewButton "OK" None).

(** The "File" entry of a menu bar on canvas 0. *)
Definition fileAction : menuBarAction :=
  mkMenuBarAction "File"
    (fyne.mkMenu "File" [fyne.mkMenuItem "Open" (Some 1%nat) None;
                         fyne.mkMenuItem "Quit" (Some 2%nat) None])
    0%nat.

(** Its button, laid out at (10, 20) with the size 80 by 30. *)
Definition fileButton : Button.Button :=
  Button.Resize (fyne.NewSize 80 30) (Button.Move (fyne.NewPos 10 20) (ToolbarObject fileAction)).

(** The renderer of item 5 of the sample menu, once laid out. *)
Definition quitRenderer : menuItemRenderer.renderer :=
  fst (menuItemRenderer.Layout desktopEnv
         (fst (menuItemRenderer.CreateRenderer desktopEnv 5%nat 9%nat twoSubmenus))
         (fyne.NewSize 66 26)).

(** ** Calls on the renderer of a menu item, one after the other *)

(** A call of [Layout] or of [MinSize], with what the theme, the device
    and the driver answer at that moment. *)
Inductive RendererCall :=
| CallLayout (e : Env) (size : fyne.Size)
| CallMinSize (e : Env).

Definition rendererStep (r : menuItemRenderer.renderer) (c : RendererCall)
  : menuItemRenderer.renderer :=
  match c with
  | CallLayout e size => fst (menuItemRenderer.Layout e r size)
  | CallMinSize e => fst (fst (menuItemRenderer.MinSize e r))
  end.

Definition rendererRun (cs : list RendererCall) (r : menuItemRenderer.renderer)
  : menuItemRenderer.renderer :=
  fold_left rendererStep cs r.

(** ** Building the menu bar *)

(** [newMenuBarAction]; [c] is the canvas of the window. *)
Definition newMenuBarAction (m : fyne.Menu) (c : loc) : menuBarAction :=
  mkMenuBarAction (fyne.MLabel m) m c.

(** [buildMenuBar], as the items it hands to the toolbar: the loop appends
    one action for each menu of the main menu. *)
Definition buildMenuBar (menus : list fyne.Menu) (c : loc) : list menuBarAction :=
  fold_left (fun items m => items ++ [newMenuBarAction m c]) menus [].

(** ** Events on the items of one menu *)

(** An event on an item of the menu [m] that does not run an action: a
    pointer entering or leaving, or a tap on an item without action. *)
Definition plain_event_of (m : loc) (s : Store) (ev : Event) : Prop :=
  match ev with
  | EvMouseIn i => Parent (items s i) = m
  | EvMouseOut i => Parent (items s i) = m
  | EvTapped i => Parent (items s i) = m /\ fyne.Action (Item (items s i)) = None
  end.

(** What an event never changes in an item: its place in the tree, its
    menu data, its size and its position. *)
Definition same_structure (s s' : Store) : Prop :=
  forall j,
    Parent (items s' j) = Parent (items s j) /\
    child (items s' j) = child (items s j) /\
    Item (items s' j) = Item (items s j) /\
    iBase (items s' j) = iBase (items s j).

(** ** Making a menu item *)

(** [newMenuItem], at the address [addr] of the new item: the item and its
    parent are set, the other fields are zero. *)
Definition newMenuItem (addr : loc) (item : fyne.MenuItem) (parent : loc) (s : Store)
  : Store :=
  set_item addr (fun _ => mkMenuItem zeroBase item parent None false) s.

(** An item "more" with a child menu, just made in the menu 0. *)
Definition newItemStore : Store :=
  newMenuItem 1%nat (fyne.mkMenuItem "more" None (Some (fyne.mkMenu "" []))) 0%nat
    emptyStore.

(** The desktop under a theme without padding. *)
Definition flatEnv : Env :=
  mkEnv (mkTheme 0 14 20 (TextColor sampleTheme) (ButtonColor sampleTheme)
           (DisabledButtonColor sampleTheme) (HoverColor sampleTheme)
           (PrimaryColor sampleTheme))
    false
    (CanvasForObject desktopEnv) (AbsolutePositionForObject desktopEnv)
    (MenuMinSize desktopEnv) (RenderedTextSize desktopEnv).


(** The sample menu with the submenu 2 not sized yet. *)
Definition unsizedSubmenu : Store :=
  Menu.Resize 2%nat (fyne.NewSize 0 0) twoSubmenus.

(** A main menu of two menus. *)
Definition mainMenu : list fyne.Menu :=
  [fyne.mkMenu "File" [fyne.mkMenuItem "Open" (Some 1%nat) None;
                       fyne.mkMenuItem "Quit" (Some 2%nat) None];
   fyne.mkMenu "Help" [fyne.mkMenuItem "About" (Some 3%nat) None]].

(** ** Arithmetic of [int] *)

Lemma wrap_id z : - 2 ^ 63 <= z < 2 ^ 63 -> int.wrap z = z.
Proof.
  intros Hz. unfold int.wrap.
  rewrite Z.mod_small by lia. lia.
Qed.

Ltac unwrap :=
  unfold int.add, int.sub, int.neg, int.mul in *;
  repeat match goal with
         | |- context [int.wrap ?z] => rewrite (wrap_id z) by lia
         end.

(** ** Reading the store after an update *)

Lemma menus_set_menu m f s x :
  menus (set_menu m f s) x = if decide (m = x) then f (menus s m) else menus s x.
Proof. reflexivity. Qed.

Lemma menus_set_menu_eq m f s : menus (set_menu m f s) m = f (menus s m).
Proof. rewrite menus_set_menu. now destruct (decide (m = m)). Qed.

(** ** Placement of a submenu *)

(** Adding or subtracting after a wrap is adding or subtracting before it. *)
Lemma wrap_add_l a b : int.wrap (int.wrap a + b) = int.wrap (a + b).
Proof.
  unfold int.wrap. f_equal.
  replace ((a + 2 ^ 63) mod 2 ^ 64 - 2 ^ 63 + b + 2 ^ 63)
    with ((a + 2 ^ 63) mod 2 ^ 64 + b) by lia.
  rewrite Zplus_mod_idemp_l. f_equal. lia.
Qed.

Lemma wrap_add_r a b : int.wrap (a + int.wrap b) = int.wrap (a + b).
Proof. rewrite Z.add_comm, wrap_add_l. f_equal. lia. Qed.

Lemma wrap_sub_l a b : int.wrap (int.wrap a - b) = int.wrap (a - b).
Proof. unfold Z.sub. apply wrap_add_l. Qed.

(** The right (or bottom) edge of a submenu that was put at [W - a - c]
    is at [W]. *)
Lemma clamp_edge a c W : int.valid W -> a .+ (W .- a .- c) .+ c = W.
Proof.
  unfold int.valid, int.min_int, int.max_int. intros HW.
  unfold int.add, int.sub.
  rewrite wrap_sub_l, wrap_add_r, wrap_add_l.
  replace (a + (W - a - c) + c) with W by lia.
  apply wrap_id. lia.
Qed.

(** C1, as amended: with a canvas of width [W] and height [H], an item of
    width [iw] at the absolute position [(ax, ay)], a submenu of size
    [cw] by [chh] and the theme padding [pad], the position [cp] that
    [updateChildPosition] gives the submenu (relative to the item) is,
    with the sums and differences of the program: horizontally, [-cw]
    (left of the item) when [ax+iw+cw > W] and [ax-cw >= 0]; the one that
    puts the right edge of the submenu at [W] when [ax+iw+cw > W] and
    [ax-cw < 0]; [iw] (right of the item) otherwise; vertically, [-pad],
    unless [ay+chh-pad > H], in which case the bottom edge of the submenu
    is put at [H]. *)
Theorem updateChildPosition_placement (e : Env) (i ch : loc) (s : Store) (W H : Z) :
  let ax := fyne.X (AbsolutePositionForObject e i) in
  let ay := fyne.Y (AbsolutePositionForObject e i) in
  let iw := fyne.Width (menuItem.Size i s) in
  let cw := fyne.Width (Menu.Size ch s) in
  let chh := fyne.Height (Menu.Size ch s) in
  let pad := Padding (theme e) in
  child (items s i) = Some ch ->
  CanvasForObject e i = Some (fyne.NewSize W H) ->
  int.valid W -> int.valid H ->
  exists s',
    menuItem.updateChildPosition e i s = Some s' /\
    let cp := Menu.Position ch s' in
    (ax .+ iw .+ cw > W -> ax .- cw >= 0 -> fyne.X cp = int.neg cw) /\
    (ax .+ iw .+ cw > W -> ax .- cw < 0 -> ax .+ fyne.X cp .+ cw = W) /\
    (ax .+ iw .+ cw <= W -> fyne.X cp = iw) /\
    (ay .+ chh .- pad > H -> ay .+ fyne.Y cp .+ chh = H) /\
    (ay .+ chh .- pad <= H -> fyne.Y cp = int.neg pad).
Proof.
  intros ax ay iw cw chh pad Hch Hc HW HH.
  unfold menuItem.updateChildPosition. rewrite Hch, Hc.
  eexists. split; [reflexivity|].
  unfold Menu.Position, Menu.Move. rewrite menus_set_menu_eq. cbn.
  fold ax ay iw cw chh pad.
  destruct (Z.gtb_spec (ax .+ iw .+ cw) W) as [Hx|Hx];
    [destruct (Z.geb_spec (ax .- cw) 0) as [Hl|Hl]|];
    destruct (Z.gtb_spec (ay .+ chh .- pad) H) as [Hy|Hy];
    cbn; repeat split; intros;
    first [reflexivity | lia | now apply clamp_edge].
Qed.

(** On the 100 by 50 canvas, item 1 (10 wide, at (0, 40)) and its 20 by 30
    submenu: the submenu goes to the right of the item, with its bottom
    edge on the bottom edge of the canvas. *)
Lemma updateChildPosition_placement_witness :
  exists s',
    menuItem.updateChildPosition desktopEnv 1%nat twoSubmenus = Some s' /\
    let cp := Menu.Position 2%nat s' in
    (0 .+ 10 .+ 20 > 100 -> 0 .- 20 >= 0 -> fyne.X cp = int.neg 20) /\
    (0 .+ 10 .+ 20 > 100 -> 0 .- 20 < 0 -> 0 .+ fyne.X cp .+ 20 = 100) /\
    (0 .+ 10 .+ 20 <= 100 -> fyne.X cp = 10) /\
    (40 .+ 30 .- 4 > 50 -> 40 .+ fyne.Y cp .+ 30 = 50) /\
    (40 .+ 30 .- 4 <= 50 -> fyne.Y cp = int.neg 4).
Proof.
  apply (updateChildPosition_placement desktopEnv 1%nat 2%nat twoSubmenus 100 50);
    first [reflexivity | (vm_compute; split; discriminate)].
Defined.

(** Without wrap-around the placement reads in plain integers. *)
Lemma updateChildPosition_placement_small (e : Env) (i ch : loc) (s : Store) (W H : Z) :
  let ax := fyne.X (AbsolutePositionForObject e i) in
  let ay := fyne.Y (AbsolutePositionForObject e i) in
  let iw := fyne.Width (menuItem.Size i s) in
  let cw := fyne.Width (Menu.Size ch s) in
  let chh := fyne.Height (Menu.Size ch s) in
  let pad := Padding (theme e) in
  child (items s i) = Some ch ->
  CanvasForObject e i = Some (fyne.NewSize W H) ->
  int.small ax -> int.small ay -> int.small iw -> int.small cw ->
  int.small chh -> int.small pad -> int.small W -> int.small H ->
  exists s',
    menuItem.updateChildPosition e i s = Some s' /\
    let cp := Menu.Position ch s' in
    (ax + iw + cw > W -> ax - cw >= 0 -> fyne.X cp = - cw) /\
    (ax + iw + cw > W -> ax - cw < 0 -> ax + fyne.X cp + cw = W) /\
    (ax + iw + cw <= W -> fyne.X cp = iw) /\
    (ay + chh - pad > H -> ay + fyne.Y cp + chh = H) /\
    (ay + chh - pad <= H -> fyne.Y cp = - pad).
Proof.
  intros ax ay iw cw chh pad Hch Hc Hax Hay Hiw Hcw Hchh Hpad HW HH.
  unfold int.small in *.
  unfold menuItem.updateChildPosition. rewrite Hch, Hc.
  eexists. split; [reflexivity|].
  unfold Menu.Position, Menu.Move. rewrite menus_set_menu_eq. cbn.
  fold ax ay iw cw chh pad.
  unwrap.
  destruct (Z.gtb_spec (ax + iw + cw) W) as [Hx|Hx];
    [destruct (Z.geb_spec (ax - cw) 0) as [Hl|Hl]|];
    destruct (Z.gtb_spec (ay + chh - pad) H) as [Hy|Hy];
    cbn; unwrap; repeat split; intros; lia.
Qed.

(** With no canvas the submenu is put to the right of the item, at minus
    the padding. *)
Lemma updateChildPosition_no_canvas (e : Env) (i ch : loc) (s : Store) :
  child (items s i) = Some ch ->
  CanvasForObject e i = None ->
  option_map (Menu.Position ch) (menuItem.updateChildPosition e i s)
  = Some (fyne.NewPos (fyne.Width (menuItem.Size i s)) (int.neg (Padding (theme e)))).
Proof.
  intros Hch Hc. unfold menuItem.updateChildPosition. rewrite Hch, Hc. cbn.
  unfold Menu.Position, Menu.Move. now rewrite menus_set_menu_eq.
Qed.

(** C1, as stated, fails: the submenu of item 1 fits to the right of the
    item ([0+10+20 <= 100]), yet its vertical offset is [-20] and not minus
    the padding ([-4]), because it would reach below the canvas. *)
Lemma updateChildPosition_offset_counterexample :
  let e := desktopEnv in
  let s := twoSubmenus in
  fyne.X (AbsolutePositionForObject e 1%nat) + fyne.Width (menuItem.Size 1%nat s)
    + fyne.Width (Menu.Size 2%nat s) <= 100 /\
  CanvasForObject e 1%nat = Some (fyne.NewSize 100 50) /\
  option_map (Menu.Position 2%nat) (menuItem.updateChildPosition e 1%nat s)
    = Some (fyne.NewPos 10 (-20)) /\
  -20 <> - Padding (theme e).
Proof. vm_compute. repeat split; congruence. Qed.

(** ** Visibility and the active child under the operations of a menu *)

Lemma Visible_Hide a s c :
  Menu.Visible c (Menu.Hide a s) = if decide (a = c) then false else Menu.Visible c s.
Proof.
  unfold Menu.Visible, Menu.Hide. rewrite menus_set_menu.
  now destruct (decide (a = c)).
Qed.

Lemma Visible_Show a s c :
  Menu.Visible c (Menu.Show a s) = if decide (a = c) then true else Menu.Visible c s.
Proof.
  unfold Menu.Visible, Menu.Show. rewrite menus_set_menu.
  now destruct (decide (a = c)).
Qed.

Lemma Visible_set_active m x s c :
  Menu.Visible c (set_menu m (with_activeChild x) s) = Menu.Visible c s.
Proof.
  unfold Menu.Visible. rewrite menus_set_menu.
  now destruct (decide (m = c)) as [->|].
Qed.

Lemma Visible_Resize m sz s c :
  Menu.Visible c (Menu.Resize m sz s) = Menu.Visible c s.
Proof.
  unfold Menu.Visible, Menu.Resize. rewrite menus_set_menu.
  now destruct (decide (m = c)) as [->|].
Qed.

Lemma Visible_Move m p s c :
  Menu.Visible c (Menu.Move m p s) = Menu.Visible c s.
Proof.
  unfold Menu.Visible, Menu.Move. rewrite menus_set_menu.
  now destruct (decide (m = c)) as [->|].
Qed.

Lemma active_with_mBase m f s x :
  activeChild (menus (set_menu m (with_mBase f) s) x) = activeChild (menus s x).
Proof. rewrite menus_set_menu. now destruct (decide (m = x)) as [->|]. Qed.

Lemma active_set_active m a s x :
  activeChild (menus (set_menu m (with_activeChild a) s) x)
  = if decide (m = x) then a else activeChild (menus s x).
Proof. rewrite menus_set_menu. now destruct (decide (m = x)). Qed.

(** [DeactivateChild] hides the active child and clears the reference;
    it touches neither the items nor the trace. *)
Lemma items_DeactivateChild m s : items (Menu.DeactivateChild m s) = items s.
Proof. unfold Menu.DeactivateChild. now destruct (activeChild (menus s m)). Qed.

Lemma trace_DeactivateChild m s : trace (Menu.DeactivateChild m s) = trace s.
Proof. unfold Menu.DeactivateChild. now destruct (activeChild (menus s m)). Qed.

Lemma active_DeactivateChild m s x :
  activeChild (menus (Menu.DeactivateChild m s) x)
  = if decide (m = x) then None else activeChild (menus s x).
Proof.
  unfold Menu.DeactivateChild.
  destruct (activeChild (menus s m)) as [a|] eqn:Ha.
  - rewrite active_set_active. destruct (decide (m = x)); [reflexivity|].
    apply active_with_mBase.
  - destruct (decide (m = x)) as [<-|]; [exact Ha | reflexivity].
Qed.

Lemma Visible_DeactivateChild m s c :
  Menu.Visible c (Menu.DeactivateChild m s)
  = if decide (activeChild (menus s m) = Some c) then false else Menu.Visible c s.
Proof.
  unfold Menu.DeactivateChild.
  destruct (activeChild (menus s m)) as [a|] eqn:Ha.
  - rewrite Visible_set_active, Visible_Hide.
    destruct (decide (a = c)) as [->|Hne].
    + now destruct (decide (Some c = Some c)).
    + destruct (decide (Some a = Some c)); [congruence | reflexivity].
  - now destruct (decide (None = Some c)).
Qed.

(** [CreateRenderer] on an item with a child menu and no submenu widget
    yet makes the submenu, hidden and with no active child. *)
Lemma CreateRenderer_child_hidden e i fresh s cm :
  fyne.ChildMenu (Item (items s i)) = Some cm ->
  child (items s i) = None ->
  let s' := snd (menuItemRenderer.CreateRenderer e i fresh s) in
  child (items s' i) = Some fresh /\
  Menu.Visible fresh s' = false /\
  activeChild (menus s' fresh) = None /\
  DismissAction (menus s' fresh) = Some (Parent (items s i)).
Proof.
  intros Hcm Hch. unfold menuItemRenderer.CreateRenderer.
  rewrite Hcm, Hch. cbn.
  unfold Menu.Visible. cbn. rewrite !fn_lookup_insert. cbn.
  repeat split.
Qed.

(** ** Pointer-exit *)

(** C7: [MouseOut] clears the hovered flag of the item and asks for a
    redraw; every menu is as it was, so the visibility of every submenu and
    the active child of every menu are unchanged, and so are the other
    fields of the item and all the other items. *)
Theorem MouseOut_clears_only_hovered (i : loc) (s : Store) :
  let s' := menuItem.MouseOut i s in
  hovered (items s' i) = false /\
  (forall c, Menu.Visible c s' = Menu.Visible c s) /\
  (forall m, activeChild (menus s' m) = activeChild (menus s m)) /\
  menus s' = menus s /\
  child (items s' i) = child (items s i) /\
  Parent (items s' i) = Parent (items s i) /\
  Item (items s' i) = Item (items s i) /\
  iBase (items s' i) = iBase (items s i) /\
  (forall j, j <> i -> items s' j = items s j) /\
  trace s' = trace s ++ [CallRefresh i].
Proof.
  cbn. unfold insert, fn_insert.
  destruct (decide (i = i)); [|congruence].
  repeat split.
  intros j Hj. destruct (decide (i = j)); congruence.
Qed.

(** ** Activation of a submenu *)

Lemma child_of_items m s s' c :
  items s' = items s -> child_of m s' c <-> child_of m s c.
Proof. intros E. unfold child_of. now rewrite E. Qed.

Lemma child_of_set_hovered m i h s c :
  child_of m (set_item i (with_hovered h) s) c <-> child_of m s c.
Proof.
  unfold child_of, set_item; cbn. unfold insert, fn_insert.
  split; intros [j Hj]; exists j; destruct (decide (i = j)) as [->|]; exact Hj.
Qed.

Lemma visible_is_active_one m s : visible_is_active m s -> at_most_one_visible m s.
Proof.
  intros Inv c1 c2 H1 H2 V1 V2.
  pose proof (Inv c1 H1 V1) as E1. pose proof (Inv c2 H2 V2) as E2. congruence.
Qed.

Lemma children_hidden_active m s : children_hidden m s -> visible_is_active m s.
Proof. intros Hh c Hc Hv. rewrite (Hh c Hc) in Hv. discriminate. Qed.

Lemma DeactivateChild_inv x m s :
  visible_is_active m s -> visible_is_active m (Menu.DeactivateChild x s).
Proof.
  intros Inv c Hc Hv.
  apply (child_of_items m s) in Hc; [|apply items_DeactivateChild].
  rewrite Visible_DeactivateChild in Hv.
  destruct (decide (activeChild (menus s x) = Some c)) as [|Hne]; [discriminate|].
  rewrite active_DeactivateChild.
  destruct (decide (x = m)) as [->|]; [|now apply Inv].
  destruct Hne. now apply Inv.
Qed.

Lemma DeactivateChild_hides m s :
  visible_is_active m s -> children_hidden m (Menu.DeactivateChild m s).
Proof.
  intros Inv c Hc.
  apply (child_of_items m s) in Hc; [|apply items_DeactivateChild].
  rewrite Visible_DeactivateChild.
  destruct (decide (activeChild (menus s m) = Some c)) as [|Hne]; [reflexivity|].
  destruct (Menu.Visible c s) eqn:Hv; [|reflexivity].
  destruct Hne. now apply Inv.
Qed.

(** A submenu that has no size yet gets its minimum size and its place;
    otherwise nothing happens.  Either way the step succeeds and leaves
    the visibility and the active children alone. *)
Lemma place_child e i ch s :
  child (items s i) = Some ch ->
  exists s',
    (if fyne.IsZero (Menu.Size ch s)
     then menuItem.updateChildPosition e i (Menu.Resize ch (MenuMinSize e ch) s)
     else Some s) = Some s' /\
    items s' = items s /\ trace s' = trace s /\
    (forall c, Menu.Visible c s' = Menu.Visible c s) /\
    (forall x, activeChild (menus s' x) = activeChild (menus s x)).
Proof.
  intros Hch.
  destruct (fyne.IsZero (Menu.Size ch s)).
  - unfold menuItem.updateChildPosition. cbn [items Menu.Resize set_menu].
    rewrite Hch. eexists. split; [reflexivity|].
    repeat split.
    + intros c. now rewrite Visible_Move, Visible_Resize.
    + intros x. unfold Menu.Move, Menu.Resize. now rewrite !active_with_mBase.
  - exists s. repeat split.
Qed.

(** [activateChild] on an item that has a submenu [ch]: it succeeds, [ch]
    is then the active child of the parent; if it was not, it is shown and
    the submenu that was active is hidden; if it was, it stays as it is. *)
Lemma activateChild_child e i s ch :
  child (items s i) = Some ch ->
  ch <> Parent (items s i) ->
  exists s',
    menuItem.activateChild e i s = Some s' /\
    items s' = items s /\ trace s' = trace s /\
    activeChild (menus s' (Parent (items s i))) = Some ch /\
    (activeChild (menus s (Parent (items s i))) <> Some ch ->
       Menu.Visible ch s' = true /\
       forall a, activeChild (menus s (Parent (items s i))) = Some a ->
                 Menu.Visible a s' = false) /\
    (activeChild (menus s (Parent (items s i))) = Some ch ->
       activeChild (menus s ch) <> Some ch ->
       Menu.Visible ch s' = Menu.Visible ch s).
Proof.
  intros Hch Hne. unfold menuItem.activateChild. rewrite Hch.
  set (p := Parent (items s i)) in *.
  set (s1 := Menu.DeactivateChild ch s).
  assert (Hp1 : activeChild (menus s1 p) = activeChild (menus s p)).
  { unfold s1. rewrite active_DeactivateChild. now destruct (decide (ch = p)). }
  destruct (decide (activeChild (menus s1 p) = Some ch)) as [Hact|Hact].
  - exists s1. split; [reflexivity|].
    split; [apply items_DeactivateChild|]. split; [apply trace_DeactivateChild|].
    split; [exact Hact|]. split; [congruence|].
    intros _ Hself. unfold s1. rewrite Visible_DeactivateChild.
    now destruct (decide (activeChild (menus s ch) = Some ch)).
  - set (s2 := Menu.DeactivateChild p s1).
    assert (Hi2 : items s2 = items s).
    { unfold s2, s1. now rewrite !items_DeactivateChild. }
    assert (Hch2 : child (items s2 i) = Some ch) by now rewrite Hi2.
    destruct (place_child e i ch s2 Hch2) as (s3 & -> & Hi3 & Ht3 & Hv3 & Ha3).
    cbn [mbind option_bind].
    eexists. split; [reflexivity|].
    split; [cbn; congruence|].
    split; [cbn; unfold s2, s1 in Ht3; now rewrite !trace_DeactivateChild in Ht3|].
    split.
    { unfold Menu.Show. rewrite active_with_mBase, active_set_active.
      now destruct (decide (p = p)). }
    split; [|congruence].
    intros _. split.
    { rewrite Visible_Show. now destruct (decide (ch = ch)). }
    intros a Ha. rewrite Visible_Show.
    destruct (decide (ch = a)) as [->|]; [congruence|].
    rewrite Visible_set_active, Hv3. unfold s2.
    rewrite Visible_DeactivateChild.
    destruct (decide (activeChild (menus s1 p) = Some a)); [reflexivity|congruence].
Qed.

(** [activateChild] keeps "a visible submenu is the active one". *)
Lemma activateChild_inv e i s m :
  Parent (items s i) = m ->
  visible_is_active m s ->
  exists s',
    menuItem.activateChild e i s = Some s' /\
    items s' = items s /\ trace s' = trace s /\
    visible_is_active m s'.
Proof.
  intros Hp Inv. unfold menuItem.activateChild. rewrite Hp.
  set (s1 := match child (items s i) with
             | Some ch => Menu.DeactivateChild ch s
             | None => s
             end).
  assert (Hi1 : items s1 = items s).
  { unfold s1. destruct (child (items s i)); [apply items_DeactivateChild|reflexivity]. }
  assert (Ht1 : trace s1 = trace s).
  { unfold s1. destruct (child (items s i)); [apply trace_DeactivateChild|reflexivity]. }
  assert (Inv1 : visible_is_active m s1).
  { unfold s1. destruct (child (items s i)); [now apply DeactivateChild_inv|exact Inv]. }
  destruct (decide (activeChild (menus s1 m) = child (items s i))) as [Hact|Hact].
  { exists s1. repeat split; assumption. }
  set (s2 := Menu.DeactivateChild m s1).
  assert (Hi2 : items s2 = items s).
  { unfold s2. now rewrite items_DeactivateChild. }
  assert (Ht2 : trace s2 = trace s).
  { unfold s2. now rewrite trace_DeactivateChild. }
  assert (Hh2 : children_hidden m s2) by now apply DeactivateChild_hides.
  destruct (child (items s i)) as [ch|] eqn:Hch.
  - assert (Hch2 : child (items s2 i) = Some ch) by now rewrite Hi2.
    destruct (place_child e i ch s2 Hch2) as (s3 & -> & Hi3 & Ht3 & Hv3 & Ha3).
    cbn [mbind option_bind].
    eexists. split; [reflexivity|].
    split; [cbn; congruence|]. split; [cbn; congruence|].
    intros c Hc Hv.
    unfold Menu.Show. rewrite active_with_mBase, active_set_active.
    destruct (decide (m = m)); [|congruence].
    fold (Menu.Show ch (set_menu m (with_activeChild (Some ch)) s3)) in Hv.
    rewrite Visible_Show in Hv.
    destruct (decide (ch = c)) as [->|]; [reflexivity|].
    rewrite Visible_set_active, Hv3 in Hv.
    assert (Hc2 : child_of m s2 c).
    { apply (child_of_items m s2) in Hc; [exact Hc|]. cbn. exact Hi3. }
    rewrite (Hh2 c Hc2) in Hv. discriminate.
  - exists s2. repeat split; try assumption.
    now apply children_hidden_active.
Qed.

(** [MouseIn] on an item of [m] keeps it too, and changes no item but for
    the hovered flag. *)
Lemma MouseIn_inv e i s m :
  Parent (items s i) = m ->
  visible_is_active m s ->
  exists s',
    menuItem.MouseIn e i s = Some s' /\
    visible_is_active m s' /\
    (forall j, Parent (items s' j) = Parent (items s j)).
Proof.
  intros Hp Inv. unfold menuItem.MouseIn.
  set (s0 := set_item i (with_hovered true) s).
  assert (Hpar : forall j, Parent (items s0 j) = Parent (items s j)).
  { intros j. unfold s0, set_item; cbn. unfold insert, fn_insert.
    now destruct (decide (i = j)) as [->|]. }
  assert (Inv0 : visible_is_active m s0).
  { intros c Hc Hv. apply child_of_set_hovered in Hc. now apply Inv. }
  assert (Hp0 : Parent (items s0 i) = m) by now rewrite Hpar.
  destruct (activateChild_inv e i s0 m Hp0 Inv0) as (s' & -> & Hi & Ht & Inv').
  cbn [mbind option_bind]. eexists. split; [reflexivity|].
  split.
  - intros c Hc Hv. apply Inv'; [|exact Hv].
    apply (child_of_items m s') in Hc; [exact Hc | reflexivity].
  - intros j. cbn. now rewrite Hi.
Qed.


Lemma twoSubmenus_children m c :
  child_of m twoSubmenus c -> m = 0%nat /\ (c = 2%nat \/ c = 4%nat).
Proof.
  intros (i & Hp & Hc). revert Hp Hc.
  unfold twoSubmenus. cbn [items].
  destruct (decide (1%nat = i)) as [<-|n1].
  { rewrite fn_lookup_insert. cbn. intros <- [= <-]. auto. }
  rewrite fn_lookup_insert_ne by exact n1.
  destruct (decide (3%nat = i)) as [<-|n3].
  { rewrite fn_lookup_insert. cbn. intros <- [= <-]. auto. }
  rewrite fn_lookup_insert_ne by exact n3.
  destruct (decide (5%nat = i)) as [<-|n5].
  { rewrite fn_lookup_insert. cbn. intros _ [=]. }
  rewrite fn_lookup_insert_ne by exact n5.
  cbn. intros _ [=].
Qed.

Lemma twoSubmenus_hidden : children_hidden 0%nat twoSubmenus.
Proof.
  intros c Hc. apply twoSubmenus_children in Hc as [_ [-> | ->]]; reflexivity.
Qed.


(** Hovering item 1 opens the submenu 2; hovering item 3 then closes it and
    opens the submenu 4. *)
Example hover_1 :
  option_map observe (run desktopEnv [EvMouseIn 1%nat] twoSubmenus)
  = Some (Some 2%nat, true, false).
Proof. reflexivity. Qed.

Example hover_1_3 :
  option_map observe (run desktopEnv [EvMouseIn 1%nat; EvMouseIn 3%nat] twoSubmenus)
  = Some (Some 4%nat, false, true).
Proof. reflexivity. Qed.

(** [MouseIn] on an item with a submenu that is not the active one: the
    submenu becomes the active child and is shown, the submenu that was
    active is hidden. *)
Lemma MouseIn_switches e i s ch :
  child (items s i) = Some ch ->
  ch <> Parent (items s i) ->
  activeChild (menus s (Parent (items s i))) <> Some ch ->
  exists s',
    menuItem.MouseIn e i s = Some s' /\
    activeChild (menus s' (Parent (items s i))) = Some ch /\
    Menu.Visible ch s' = true /\
    forall a, activeChild (menus s (Parent (items s i))) = Some a ->
              Menu.Visible a s' = false.
Proof.
  intros Hch Hne Hact. unfold menuItem.MouseIn.
  set (s0 := set_item i (with_hovered true) s).
  assert (E : items s0 i = with_hovered true (items s i)).
  { unfold s0, set_item; cbn. unfold insert, fn_insert.
    now destruct (decide (i = i)). }
  destruct (activateChild_child e i s0 ch) as (s' & -> & _ & _ & Ha & Hin & _).
  { now rewrite E. }
  { now rewrite E. }
  rewrite E in Ha, Hin. cbn [Parent with_hovered] in Ha, Hin.
  cbn [mbind option_bind]. eexists. split; [reflexivity|].
  split; [exact Ha|]. now apply Hin.
Qed.

(** C10: [MouseIn] on an item without a submenu succeeds, marks the item
    hovered, leaves its parent menu without an active child and the
    submenu that was the active child hidden. *)
Theorem MouseIn_childless_deactivates (e : Env) (i : loc) (s : Store) :
  child (items s i) = None ->
  exists s',
    menuItem.MouseIn e i s = Some s' /\
    hovered (items s' i) = true /\
    activeChild (menus s' (Parent (items s i))) = None /\
    forall a, activeChild (menus s (Parent (items s i))) = Some a ->
              Menu.Visible a s' = false.
Proof.
  intros Hch. unfold menuItem.MouseIn, menuItem.activateChild.
  set (s0 := set_item i (with_hovered true) s).
  assert (E : items s0 i = with_hovered true (items s i)).
  { unfold s0, set_item; cbn. unfold insert, fn_insert.
    now destruct (decide (i = i)). }
  rewrite E. cbn [child Parent with_hovered]. rewrite Hch.
  set (p := Parent (items s i)).
  destruct (decide (activeChild (menus s0 p) = None)) as [Hact|Hact];
    cbn [mbind option_bind]; eexists; (split; [reflexivity|]).
  - split; [cbn [menuItem.Refresh log items]; now rewrite E|]. split; [exact Hact|].
    intros a Ha. change (menus s0) with (menus s) in Hact. congruence.
  - split; [cbn [menuItem.Refresh log items]; now rewrite items_DeactivateChild, E|].
    split.
    + cbn. rewrite active_DeactivateChild. now destruct (decide (p = p)).
    + intros a Ha.
      change (Menu.Visible a (Menu.DeactivateChild p s0) = false).
      rewrite Visible_DeactivateChild.
      change (menus s0) with (menus s).
      now destruct (decide (activeChild (menus s p) = Some a)).
Qed.

(** With the submenu 2 open, hovering the item 5, which has no submenu,
    closes it. *)
Lemma MouseIn_childless_deactivates_witness :
  exists s',
    menuItem.MouseIn desktopEnv 5%nat submenuOpen = Some s' /\
    hovered (items s' 5%nat) = true /\
    activeChild (menus s' 0%nat) = None /\
    forall a, activeChild (menus submenuOpen 0%nat) = Some a ->
              Menu.Visible a s' = false.
Proof.
  apply (MouseIn_childless_deactivates desktopEnv 5%nat submenuOpen).
  reflexivity.
Defined.

Example hover_childless :
  observe submenuOpen = (Some 2%nat, true, false) /\
  option_map observe (menuItem.MouseIn desktopEnv 5%nat submenuOpen)
  = Some (None, false, false).
Proof. split; reflexivity. Qed.

(** ** Taps on a menu item *)

(** C6, as amended: on a touch device, a tap on an item that has no
    action but a submenu [ch] succeeds and leaves [ch] the active child of
    the parent menu.  If [ch] was not the active child it is shown and the
    submenu that was active is hidden; if it already was, it stays active
    and as visible as it was.  The only call that leaves the widgets is the
    redraw request: no action is run and nothing is dismissed. *)
Theorem Tapped_mobile_activates (e : Env) (i ch : loc) (s : Store) :
  IsMobile e = true ->
  fyne.Action (Item (items s i)) = None ->
  child (items s i) = Some ch ->
  ch <> Parent (items s i) ->
  exists s',
    menuItem.Tapped e i s = Some s' /\
    activeChild (menus s' (Parent (items s i))) = Some ch /\
    (activeChild (menus s (Parent (items s i))) <> Some ch ->
       Menu.Visible ch s' = true /\
       forall a, activeChild (menus s (Parent (items s i))) = Some a ->
                 Menu.Visible a s' = false) /\
    (activeChild (menus s (Parent (items s i))) = Some ch ->
       activeChild (menus s ch) <> Some ch ->
       Menu.Visible ch s' = Menu.Visible ch s) /\
    trace s' = trace s ++ [CallRefresh i].
Proof.
  intros Hmob Hact Hch Hne. unfold menuItem.Tapped. rewrite Hact, Hmob.
  destruct (activateChild_child e i s ch Hch Hne)
    as (s' & -> & Hi & Ht & Ha & Hin & Hout).
  cbn [mbind option_bind]. eexists. split; [reflexivity|].
  split; [exact Ha|]. split; [exact Hin|]. split; [exact Hout|].
  cbn. now rewrite Ht.
Qed.

Lemma Tapped_mobile_activates_witness :
  exists s',
    menuItem.Tapped mobileEnv 1%nat submenuOpen = Some s' /\
    activeChild (menus s' 0%nat) = Some 2%nat /\
    (activeChild (menus submenuOpen 0%nat) <> Some 2%nat ->
       Menu.Visible 2%nat s' = true /\
       forall a, activeChild (menus submenuOpen 0%nat) = Some a ->
                 Menu.Visible a s' = false) /\
    (activeChild (menus submenuOpen 0%nat) = Some 2%nat ->
       activeChild (menus submenuOpen 2%nat) <> Some 2%nat ->
       Menu.Visible 2%nat s' = Menu.Visible 2%nat submenuOpen) /\
    trace s' = trace submenuOpen ++ [CallRefresh 1%nat].
Proof.
  apply (Tapped_mobile_activates mobileEnv 1%nat 2%nat submenuOpen);
    first [reflexivity | discriminate].
Defined.

(** C6, as stated, fails: on a touch device a first tap on item 1 opens
    its submenu 2, and a second tap, on the item whose submenu is now the
    active one, leaves it the active child and visible. *)
Lemma Tapped_mobile_toggle_counterexample :
  IsMobile mobileEnv = true /\
  fyne.Action (Item (items twoSubmenus 1%nat)) = None /\
  child (items twoSubmenus 1%nat) = Some 2%nat /\
  option_map observe (run mobileEnv [EvTapped 1%nat] twoSubmenus)
  = Some (Some 2%nat, true, false) /\
  option_map observe (run mobileEnv [EvTapped 1%nat; EvTapped 1%nat] twoSubmenus)
  = Some (Some 2%nat, true, false).
Proof. repeat split. Qed.

(** A tap on an item that has an action runs it and then dismisses the
    parent menu; on a desktop a tap on an item without action does
    nothing. *)
Lemma Tapped_action e i s f :
  fyne.Action (Item (items s i)) = Some f ->
  option_map trace (menuItem.Tapped e i s)
  = Some (trace s ++ [CallAction f; CallDismiss (Parent (items s i))]).
Proof.
  intros Hf. unfold menuItem.Tapped. rewrite Hf. cbn.
  now rewrite <- app_assoc.
Qed.

Lemma Tapped_desktop_no_action e i s :
  fyne.Action (Item (items s i)) = None ->
  IsMobile e = false ->
  menuItem.Tapped e i s = Some s.
Proof. intros Hf Hm. unfold menuItem.Tapped. now rewrite Hf, Hm. Qed.

(** ** The background colour of a button *)

(** C3: the colour of a button is decided by its disabled flag, its
    importance and its hovered flag alone; of the four rules (disabled,
    high importance, hovered, default, each applying only when none before
    it does) exactly one applies and gives the colour; a disabled button
    has the disabled colour whatever its importance and hovered flag. *)
Theorem buttonColor_precedence (e : Env) (b : Button.Button) :
  (exists r, applies r b /\ forall r', applies r' b -> r' = r) /\
  (forall r, applies r b -> Button.buttonColor e b = ruleColor (theme e) r) /\
  (Button.Disabled b = true ->
   Button.buttonColor e b = DisabledButtonColor (theme e)) /\
  (forall b',
     Button.Disabled b' = Button.Disabled b ->
     Button.Importance b' = Button.Importance b ->
     Button.hovered b' = Button.hovered b ->
     Button.buttonColor e b' = Button.buttonColor e b).
Proof.
  unfold Button.buttonColor. repeat split.
  - destruct (Button.Disabled b) eqn:Hd;
      [|destruct (decide (Button.Importance b = HighImportance)) as [Hi|Hi];
        [|destruct (Button.hovered b) eqn:Hh]].
    + exists RuleDisabled. split; [exact Hd|].
      intros [] Hr; cbn in Hr; try reflexivity; destruct Hr; congruence.
    + exists RuleHighImportance. split; [now split|].
      intros [] Hr; cbn in Hr; try reflexivity;
        try congruence; destruct Hr as (? & ? & ?); congruence.
    + exists RuleHovered. split; [now repeat split|].
      intros [] Hr; cbn in Hr; try reflexivity;
        try congruence; destruct Hr as (? & Hr); try congruence.
      destruct Hr; congruence.
    + exists RuleDefault. split; [now repeat split|].
      intros [] Hr; cbn in Hr; try reflexivity;
        try congruence; destruct Hr as (? & Hr); try congruence.
      destruct Hr; congruence.
  - intros [] Hr; cbn in Hr.
    + now rewrite Hr.
    + destruct Hr as [-> Hi].
      now destruct (decide (Button.Importance b = HighImportance)).
    + destruct Hr as (-> & Hi & ->).
      now destruct (decide (Button.Importance b = HighImportance)).
    + destruct Hr as (-> & Hi & ->).
      now destruct (decide (Button.Importance b = HighImportance)).
  - intros ->. reflexivity.
  - intros b' -> -> ->. reflexivity.
Qed.

(** The disabled, hovered button of high importance has the disabled
    colour. *)
Lemma buttonColor_precedence_witness :
  Button.Disabled disabledButton = true /\
  Button.buttonColor desktopEnv disabledButton = DisabledButtonColor sampleTheme.
Proof.
  split; [reflexivity|].
  destruct (buttonColor_precedence desktopEnv disabledButton) as (_ & _ & Hd & _).
  apply Hd. reflexivity.
Defined.

(** C4, as amended: on every device, the hovered flag changes the colour
    of a button exactly when the button is enabled and not of high
    importance, in which case a hovered button has the hover colour and
    one that is not the base button colour; a disabled button and one of
    high importance have the same colour hovered or not.  The device plays
    no part: two environments with the same theme give the same colour. *)
Theorem buttonColor_hover (e : Env) (b : Button.Button) :
  (Button.Disabled b = true \/ Button.Importance b = HighImportance ->
   Button.buttonColor e (Button.with_hovered true b)
   = Button.buttonColor e (Button.with_hovered false b)) /\
  (Button.Disabled b = false -> Button.Importance b <> HighImportance ->
   Button.buttonColor e (Button.with_hovered true b) = HoverColor (theme e) /\
   Button.buttonColor e (Button.with_hovered false b) = ButtonColor (theme e)) /\
  (forall e', theme e' = theme e ->
              Button.buttonColor e' b = Button.buttonColor e b).
Proof.
  unfold Button.buttonColor, Button.Disabled. cbn. split; [|split].
  - intros [-> | Hi]; [reflexivity|].
    destruct (Button.disabled b); [reflexivity|].
    now destruct (decide (Button.Importance b = HighImportance)).
  - intros -> Hi.
    now destruct (decide (Button.Importance b = HighImportance)).
  - intros e' ->. reflexivity.
Qed.

(** On the touch device the enabled button of medium importance has the
    hover colour once hovered. *)
Lemma buttonColor_hover_witness :
  Button.buttonColor mobileEnv (Button.with_hovered true (Button.NewButton "OK" None))
  = HoverColor sampleTheme /\
  Button.buttonColor mobileEnv (Button.with_hovered false (Button.NewButton "OK" None))
  = ButtonColor sampleTheme.
Proof.
  destruct (buttonColor_hover mobileEnv (Button.NewButton "OK" None)) as (_ & Hh & _).
  apply Hh; [reflexivity | discriminate].
Defined.

(** C4, as stated, fails: on a touch-only device a hovered, enabled button
    of medium importance has the hover colour, which is not the base
    button colour. *)
Lemma buttonColor_touch_counterexample :
  IsMobile mobileEnv = true /\
  Button.Disabled hoveredButton = false /\
  Button.Importance hoveredButton = MediumImportance /\
  Button.hovered hoveredButton = true /\
  Button.buttonColor mobileEnv hoveredButton = HoverColor (theme mobileEnv) /\
  Button.buttonColor mobileEnv hoveredButton <> ButtonColor (theme mobileEnv).
Proof. repeat split. discriminate. Qed.

(** The menu item renderer does look at the device: on a touch device a
    hovered item stays transparent. *)
Lemma menuItem_BackgroundColor_mobile e r s :
  IsMobile e = true -> menuItemRenderer.BackgroundColor e r s = Transparent.
Proof. intros Hm. unfold menuItemRenderer.BackgroundColor. now rewrite Hm. Qed.

(** ** Taps on a button *)

(** C5: a tap on a disabled button changes nothing and does nothing: the
    button is as before, no animation is stopped or started, no redraw is
    asked for and the tap handler is not called, whatever the handler and
    the animation of the button are. *)
Theorem Tapped_disabled_noop (b : Button.Button) :
  Button.Disabled b = true -> Button.Tapped b = (b, []).
Proof. intros Hd. unfold Button.Tapped. now rewrite Hd. Qed.

Lemma Tapped_disabled_noop_witness :
  Button.Tapped disabledButton = (disabledButton, []).
Proof. apply (Tapped_disabled_noop disabledButton). reflexivity. Defined.

(** The same button, enabled, restarts its animation, asks for a redraw
    and calls its handler. *)
Example Tapped_enabled :
  Button.Tapped enabledButton
  = (enabledButton, [AnimStop; AnimStart; Refresh; Called 1%nat]).
Proof. reflexivity. Qed.

(** An enabled button with a handler calls it after the animation and the
    redraw request. *)
Lemma Tapped_enabled_calls (b : Button.Button) (f : Callback) :
  Button.Disabled b = false ->
  Button.OnTapped b = Some f ->
  snd (Button.Tapped b)
  = snd (Button.tapAnimation b) ++ [Refresh] ++ Button.call f (fst (Button.tapAnimation b)).
Proof.
  intros Hd Hf. unfold Button.Tapped. rewrite Hd.
  destruct (Button.tapAnimation b) as [b' fx] eqn:E. cbn.
  assert (Hb' : Button.OnTapped b' = Button.OnTapped b).
  { revert E. unfold Button.tapAnimation.
    destruct (Button.tapBG b); [destruct (Button.tapAnim b)|]; intros [= <- _]; reflexivity. }
  now rewrite Hb', Hf.
Qed.

Lemma tapAnimation_base (b : Button.Button) :
  Button.base (fst (Button.tapAnimation b)) = Button.base b.
Proof.
  unfold Button.tapAnimation.
  destruct (Button.tapBG b); [destruct (Button.tapAnim b)|]; reflexivity.
Qed.

(** ** The menu bar *)

(** Below a button: without wrap-around, the position plus
    [(0, height)] is the same abscissa and the ordinate plus the height. *)
Lemma PosAdd_below (p : fyne.Position) (h : Z) :
  int.valid (fyne.X p) -> int.valid (fyne.Y p + h) ->
  fyne.PosAdd p (fyne.NewPos 0 h) = fyne.NewPos (fyne.X p) (fyne.Y p + h).
Proof.
  unfold int.valid, int.min_int, int.max_int, fyne.PosAdd. intros Hx Hy. cbn.
  unfold int.add. rewrite Z.add_0_r. now rewrite !wrap_id by lia.
Qed.

(** C9: a tap on an enabled button whose tap handler is the one that
    [ToolbarObject] builds for the menu bar entry [m] ends by showing a
    popup of the items of the menu of [m], on the canvas of [m], at the
    position of the button plus [(0, height of the button)].  The button
    that [ToolbarObject] returns, put at [p] with the size [sz], asks for a
    redraw and shows that popup at [p] plus [(0, height of sz)]; put at
    (10, 20) with a height of 30, it shows it at (10, 50). *)
Theorem ToolbarObject_tap_shows_menu_below (m : menuBarAction) :
  (forall b : Button.Button,
     Button.OnTapped b = Some (menuBarTapped m) ->
     Button.Disabled b = false ->
     exists fx pop,
       snd (Button.Tapped b) = fx ++ [PoppedUp pop] /\
       fyne.Items (PopUp_menu pop) = fyne.Items (menu m) /\
       PopUp_canvas pop = canvas m /\
       PopUp_pos pop
       = fyne.PosAdd (Button.Position b) (fyne.NewPos 0 (fyne.Height (Button.Size b)))) /\
  (forall p sz,
     snd (Button.Tapped (Button.Resize sz (Button.Move p (ToolbarObject m))))
     = [Refresh;
        PoppedUp (mkPopUpMenu (fyne.NewMenu "" (fyne.Items (menu m))) (canvas m)
                    (fyne.PosAdd p (fyne.NewPos 0 (fyne.Height sz))))]) /\
  (forall w,
     snd (Button.Tapped
            (Button.Resize (fyne.NewSize w 30)
               (Button.Move (fyne.NewPos 10 20) (ToolbarObject m))))
     = [Refresh;
        PoppedUp (mkPopUpMenu (fyne.NewMenu "" (fyne.Items (menu m))) (canvas m)
                    (fyne.NewPos 10 50))]).
Proof.
  split; [|split].
  - intros b Hf Hd.
    rewrite (Tapped_enabled_calls b _ Hd Hf). cbn [Button.call].
    eexists (snd (Button.tapAnimation b) ++ [Refresh]), _.
    split; [now rewrite <- app_assoc|].
    unfold Button.Position, Button.Size. rewrite tapAnimation_base.
    repeat split.
  - intros p sz. reflexivity.
  - intros w. reflexivity.
Qed.

Lemma ToolbarObject_tap_shows_menu_below_witness :
  exists fx pop,
    snd (Button.Tapped fileButton) = fx ++ [PoppedUp pop] /\
    fyne.Items (PopUp_menu pop) = fyne.Items (menu fileAction) /\
    PopUp_canvas pop = canvas fileAction /\
    PopUp_pos pop
    = fyne.PosAdd (Button.Position fileButton)
        (fyne.NewPos 0 (fyne.Height (Button.Size fileButton))).
Proof.
  destruct (ToolbarObject_tap_shows_menu_below fileAction) as [Hpop _].
  apply (Hpop fileButton); reflexivity.
Defined.

Example fileButton_popup :
  snd (Button.Tapped fileButton)
  = [Refresh;
     PoppedUp (mkPopUpMenu
                 (fyne.mkMenu "" [fyne.mkMenuItem "Open" (Some 1%nat) None;
                                  fyne.mkMenuItem "Quit" (Some 2%nat) None])
                 0%nat (fyne.NewPos 10 50))].
Proof. reflexivity. Qed.

(** ** The minimum size of a menu item *)

(** When [minSizeUnchanged] holds, [MinSize] returns the stored size and
    measures nothing. *)
Lemma MinSize_cached e r :
  menuItemRenderer.minSizeUnchanged e r = true ->
  menuItemRenderer.MinSize e r = (r, menuItemRenderer.minSize r, []).
Proof. intros H. unfold menuItemRenderer.MinSize. now rewrite H. Qed.

(** Otherwise it measures the text and stores the new size. *)
Lemma MinSize_computed e r :
  menuItemRenderer.minSizeUnchanged e r = false ->
  snd (menuItemRenderer.MinSize e r)
  = [MeasureText (Text_Text (menuItemRenderer.text r))
       (Text_TextSize (menuItemRenderer.text r))].
Proof. intros H. unfold menuItemRenderer.MinSize. now rewrite H. Qed.

(** A change of the text size, of the icon size or of the padding of the
    theme makes [MinSize] compute again. *)
Lemma MinSize_theme_changed e r :
  Text_TextSize (menuItemRenderer.text r) <> TextSize (theme e) \/
  (exists ic, menuItemRenderer.icon r = Some ic /\
              fyne.Width (Image_size ic) <> IconInlineSize (theme e)) \/
  menuItemRenderer.lastThemePadding r <> Padding (theme e) ->
  menuItemRenderer.minSizeUnchanged e r = false.
Proof.
  unfold menuItemRenderer.minSizeUnchanged.
  intros [H | [(ic & -> & H) | H]]; apply Z.eqb_neq in H; rewrite H;
    rewrite ?andb_false_r; reflexivity.
Qed.

(** Neither [MinSize] nor [Layout] writes [lastThemePadding], and
    [CreateRenderer] leaves it zero. *)
Lemma MinSize_lastThemePadding e r :
  menuItemRenderer.lastThemePadding (fst (fst (menuItemRenderer.MinSize e r)))
  = menuItemRenderer.lastThemePadding r.
Proof.
  unfold menuItemRenderer.MinSize.
  now destruct (menuItemRenderer.minSizeUnchanged e r).
Qed.

Lemma Layout_lastThemePadding e r sz :
  menuItemRenderer.lastThemePadding (fst (menuItemRenderer.Layout e r sz))
  = menuItemRenderer.lastThemePadding r.
Proof. reflexivity. Qed.

Lemma CreateRenderer_lastThemePadding e i fresh s :
  menuItemRenderer.lastThemePadding (fst (menuItemRenderer.CreateRenderer e i fresh s)) = 0.
Proof.
  unfold menuItemRenderer.CreateRenderer.
  now destruct (fyne.ChildMenu (Item (items s i))).
Qed.

(** So, with a padding that is not zero, a renderer whose
    [lastThemePadding] is zero computes its minimum size at every call. *)
Lemma MinSize_twice_computes_twice e r :
  menuItemRenderer.lastThemePadding r = 0 ->
  Padding (theme e) <> 0 ->
  snd (menuItemRenderer.MinSize e (fst (fst (menuItemRenderer.MinSize e r))))
  = [MeasureText (Text_Text (menuItemRenderer.text r))
       (Text_TextSize (menuItemRenderer.text r))].
Proof.
  intros H0 Hp.
  rewrite MinSize_computed.
  - unfold menuItemRenderer.MinSize.
    now destruct (menuItemRenderer.minSizeUnchanged e r).
  - apply MinSize_theme_changed. right; right.
    rewrite MinSize_lastThemePadding. congruence.
Qed.

(** C8, on the code: the renderer of the item "quit", laid out under the
    sample theme (text size 14, padding 4), computes the minimum size
    66 by 26 at the first call of [MinSize]; at the second call, with the
    same theme, a size stored and the text size of the renderer equal to
    that of the theme, it measures the text and computes the size again
    instead of returning the stored one, because [lastThemePadding] is
    still zero. *)
Theorem MinSize_recomputed_under_same_theme :
  let r1 := menuItemRenderer.with_minSize (fyne.NewSize 66 26) quitRenderer in
  menuItemRenderer.MinSize desktopEnv quitRenderer
  = (r1, fyne.NewSize 66 26, [MeasureText "quit" 14]) /\
  fyne.IsZero (menuItemRenderer.minSize r1) = false /\
  Text_TextSize (menuItemRenderer.text r1) = TextSize (theme desktopEnv) /\
  menuItemRenderer.icon r1 = None /\
  menuItemRenderer.lastThemePadding r1 = 0 /\
  Padding (theme desktopEnv) = 4 /\
  menuItemRenderer.minSizeUnchanged desktopEnv r1 = false /\
  menuItemRenderer.MinSize desktopEnv r1
  = (r1, fyne.NewSize 66 26, [MeasureText "quit" 14]).
Proof. vm_compute. repeat split. Qed.

(** * Further properties of the code *)

(** ** The place of a submenu, again *)

(** What [updateChildPosition] leaves alone: it moves the submenu of the
    item and nothing else. *)
Lemma updateChildPosition_moves e i s s' :
  menuItem.updateChildPosition e i s = Some s' ->
  exists ch p,
    child (items s i) = Some ch /\ s' = Menu.Move ch p s.
Proof.
  unfold menuItem.updateChildPosition.
  destruct (child (items s i)) as [ch|]; [|discriminate].
  intros [= <-]. eauto.
Qed.

Lemma menus_Move ch p s m :
  menus (Menu.Move ch p s) m
  = if decide (ch = m) then with_mBase (with_pos p) (menus s ch) else menus s m.
Proof. apply menus_set_menu. Qed.

(** X1: updating the position of the submenu a second time, nothing else
    having changed, succeeds and leaves every menu, and so the position of
    the submenu, as the first update left it. *)
Theorem updateChildPosition_idempotent (e : Env) (i : loc) (s s1 : Store) :
  menuItem.updateChildPosition e i s = Some s1 ->
  exists s2,
    menuItem.updateChildPosition e i s1 = Some s2 /\
    (forall m, menus s2 m = menus s1 m) /\
    items s2 = items s1 /\ trace s2 = trace s1.
Proof.
  unfold menuItem.updateChildPosition.
  destruct (child (items s i)) as [ch|] eqn:Hch; [|discriminate].
  intros [= <-].
  match goal with
  | |- context [Menu.Move ch ?p s] => set (cp := p)
  end.
  change (items (Menu.Move ch cp s)) with (items s). rewrite Hch.
  eexists. split; [reflexivity|]. split; [|split; reflexivity].
  intros m. unfold menuItem.Size, Menu.Size.
  change (items (Menu.Move ch cp s)) with (items s).
  rewrite !menus_Move.
  destruct (decide (ch = m)) as [<-|]; [|reflexivity].
  destruct (decide (ch = ch)); [|congruence].
  unfold cp, menuItem.Size, Menu.Size. reflexivity.
Qed.

Lemma updateChildPosition_idempotent_witness :
  exists s2,
    menuItem.updateChildPosition desktopEnv 1%nat
      (Menu.Move 2%nat (fyne.NewPos 10 (-20)) twoSubmenus) = Some s2 /\
    (forall m, menus s2 m = menus (Menu.Move 2%nat (fyne.NewPos 10 (-20)) twoSubmenus) m) /\
    items s2 = items (Menu.Move 2%nat (fyne.NewPos 10 (-20)) twoSubmenus) /\
    trace s2 = trace (Menu.Move 2%nat (fyne.NewPos 10 (-20)) twoSubmenus).
Proof.
  apply (updateChildPosition_idempotent desktopEnv 1%nat twoSubmenus).
  reflexivity.
Defined.

(** X2: without wrap-around, the submenu that [updateChildPosition] has
    placed does not reach below the bottom edge of the canvas; it does not
    reach past the right edge when the left edge of the item is on the
    canvas; its left edge is on the canvas when the item is and the submenu
    is not wider than the canvas; its top edge is on the canvas when the
    item is at least the padding below the top and the submenu is not
    higher than the canvas. *)
Theorem updateChildPosition_inside_canvas (e : Env) (i ch : loc) (s : Store) (W H : Z) :
  let ax := fyne.X (AbsolutePositionForObject e i) in
  let ay := fyne.Y (AbsolutePositionForObject e i) in
  let iw := fyne.Width (menuItem.Size i s) in
  let cw := fyne.Width (Menu.Size ch s) in
  let chh := fyne.Height (Menu.Size ch s) in
  let pad := Padding (theme e) in
  child (items s i) = Some ch ->
  CanvasForObject e i = Some (fyne.NewSize W H) ->
  int.small ax -> int.small ay -> int.small iw -> int.small cw ->
  int.small chh -> int.small pad -> int.small W -> int.small H ->
  exists s',
    menuItem.updateChildPosition e i s = Some s' /\
    let cp := Menu.Position ch s' in
    ay + fyne.Y cp + chh <= H /\
    (ax <= W -> ax + fyne.X cp + cw <= W) /\
    (0 <= ax -> 0 <= iw -> cw <= W -> 0 <= ax + fyne.X cp) /\
    (pad <= ay -> chh <= H -> 0 <= ay + fyne.Y cp).
Proof.
  intros ax ay iw cw chh pad Hch Hc Hax Hay Hiw Hcw Hchh Hpad HW HH.
  destruct (updateChildPosition_placement_small e i ch s W H Hch Hc
              Hax Hay Hiw Hcw Hchh Hpad HW HH)
    as (s' & E & Hleft & Hclamp & Hright & Hup & Hdown).
  exists s'. split; [exact E|].
  cbv zeta in *. fold ax ay iw cw chh pad in Hleft, Hclamp, Hright, Hup, Hdown |- *.
  repeat split; intros; lia.
Qed.

Lemma updateChildPosition_inside_canvas_witness :
  exists s',
    menuItem.updateChildPosition desktopEnv 1%nat twoSubmenus = Some s' /\
    let cp := Menu.Position 2%nat s' in
    40 + fyne.Y cp + 30 <= 50 /\
    (0 <= 100 -> 0 + fyne.X cp + 20 <= 100) /\
    (0 <= 0 -> 0 <= 10 -> 20 <= 100 -> 0 <= 0 + fyne.X cp) /\
    (4 <= 40 -> 30 <= 50 -> 0 <= 40 + fyne.Y cp).
Proof.
  apply (updateChildPosition_inside_canvas desktopEnv 1%nat 2%nat twoSubmenus 100 50);
    first [reflexivity | (vm_compute; split; discriminate)].
Defined.

(** ** Resizing a menu item *)

(** X3: [Resize] never fails, with or without a submenu: it stores the new
    size of the item, leaves the other items, the trace and every menu
    that is not the submenu of the item alone, and changes the size, the
    visibility and the active child of no menu.  With a submenu and no
    canvas, the submenu is then to the right of the item at its new
    width. *)
Theorem Resize_succeeds (e : Env) (i : loc) (sz : fyne.Size) (s : Store) :
  exists s',
    menuItem.Resize e i sz s = Some s' /\
    items s' i = with_iBase (with_size sz) (items s i) /\
    (forall j, j <> i -> items s' j = items s j) /\
    trace s' = trace s /\
    (forall m, child (items s i) <> Some m -> menus s' m = menus s m) /\
    (forall m, Menu.Size m s' = Menu.Size m s /\
               Menu.Visible m s' = Menu.Visible m s /\
               activeChild (menus s' m) = activeChild (menus s m)) /\
    (forall ch, child (items s i) = Some ch -> CanvasForObject e i = None ->
                Menu.Position ch s'
                = fyne.NewPos (fyne.Width sz) (int.neg (Padding (theme e)))).
Proof.
  unfold menuItem.Resize.
  set (s0 := set_item i (with_iBase (with_size sz)) s).
  assert (E : items s0 i = with_iBase (with_size sz) (items s i)).
  { unfold s0, set_item; cbn. apply fn_lookup_insert. }
  assert (Eo : forall j, j <> i -> items s0 j = items s j).
  { intros j Hj. unfold s0, set_item; cbn. now apply fn_lookup_insert_ne. }
  assert (Hc0 : child (items s0 i) = child (items s i)) by now rewrite E.
  destruct (child (items s0 i)) as [ch|] eqn:Hch.
  - pose proof (updateChildPosition_no_canvas e i ch s0 Hch) as Hnc.
    destruct (menuItem.updateChildPosition e i s0) as [s'|] eqn:Eu.
    2:{ unfold menuItem.updateChildPosition in Eu. rewrite Hch in Eu. discriminate. }
    destruct (updateChildPosition_moves e i s0 s' Eu) as (c & q & Hc & ->).
    assert (c = ch) as -> by congruence.
    eexists. split; [reflexivity|].
    split; [exact E|]. split; [exact Eo|]. split; [reflexivity|].
    split; [|split].
    + intros m Hm. rewrite menus_Move.
      destruct (decide (ch = m)) as [<-|]; [congruence|reflexivity].
    + intros m. rewrite Visible_Move. unfold Menu.Move, Menu.Size.
      rewrite active_with_mBase, menus_set_menu.
      now destruct (decide (ch = m)) as [<-|].
    + intros c Hc' Hcan. assert (c = ch) as -> by congruence.
      specialize (Hnc Hcan). cbn [option_map] in Hnc.
      injection Hnc as ->. unfold menuItem.Size. now rewrite E.
  - exists s0. repeat split; try assumption.
    intros c Hc. congruence.
Qed.

(** ** What a pointer-enter does to sizes and positions *)

Lemma Size_DeactivateChild x s m :
  Menu.Size m (Menu.DeactivateChild x s) = Menu.Size m s /\
  Menu.Position m (Menu.DeactivateChild x s) = Menu.Position m s.
Proof.
  unfold Menu.DeactivateChild, Menu.Size, Menu.Position, Menu.Hide.
  destruct (activeChild (menus s x)) as [a|]; [|now split].
  rewrite !menus_set_menu.
  destruct (decide (x = m)) as [<-|]; rewrite ?menus_set_menu;
    [destruct (decide (a = x)) as [<-|]|destruct (decide (a = m)) as [<-|]];
    now split.
Qed.

Lemma Size_activate p ch s m :
  Menu.Size m (Menu.Show ch (set_menu p (with_activeChild (Some ch)) s)) = Menu.Size m s /\
  Menu.Position m (Menu.Show ch (set_menu p (with_activeChild (Some ch)) s))
  = Menu.Position m s.
Proof.
  unfold Menu.Size, Menu.Position, Menu.Show.
  rewrite !menus_set_menu.
  destruct (decide (ch = m)) as [<-|]; rewrite ?menus_set_menu;
    [destruct (decide (p = ch)) as [<-|]|destruct (decide (p = m)) as [<-|]];
    now split.
Qed.

Lemma place_child_geometry e i ch s :
  child (items s i) = Some ch ->
  exists s',
    (if fyne.IsZero (Menu.Size ch s)
     then menuItem.updateChildPosition e i (Menu.Resize ch (MenuMinSize e ch) s)
     else Some s) = Some s' /\
    (forall m, ch <> m ->
               Menu.Size m s' = Menu.Size m s /\
               Menu.Position m s' = Menu.Position m s) /\
    (fyne.IsZero (Menu.Size ch s) = false -> s' = s) /\
    (fyne.IsZero (Menu.Size ch s) = true -> Menu.Size ch s' = MenuMinSize e ch).
Proof.
  intros Hch.
  destruct (fyne.IsZero (Menu.Size ch s)).
  - unfold menuItem.updateChildPosition.
    change (items (Menu.Resize ch (MenuMinSize e ch) s)) with (items s).
    rewrite Hch. eexists. split; [reflexivity|].
    split; [|split; [discriminate|]].
    + intros m Hm. unfold Menu.Size, Menu.Position, Menu.Move, Menu.Resize.
      rewrite !menus_set_menu.
      destruct (decide (ch = m)); [congruence|]. now split.
    + intros _. unfold Menu.Size, Menu.Move, Menu.Resize.
      now rewrite !menus_set_menu_eq.
  - exists s. repeat split. discriminate.
Qed.

(** X4: a pointer-enter succeeds and neither resizes nor moves a menu that
    is not the submenu of the item; it neither resizes nor moves the
    submenu of the item once that has a size; a submenu without size that
    is not yet the active child gets its minimum size. *)
Theorem MouseIn_geometry (e : Env) (i : loc) (s : Store) :
  exists s',
    menuItem.MouseIn e i s = Some s' /\
    (forall m, child (items s i) <> Some m ->
               Menu.Size m s' = Menu.Size m s /\
               Menu.Position m s' = Menu.Position m s) /\
    (forall ch, child (items s i) = Some ch ->
                fyne.IsZero (Menu.Size ch s) = false ->
                Menu.Size ch s' = Menu.Size ch s /\
                Menu.Position ch s' = Menu.Position ch s) /\
    (forall ch, child (items s i) = Some ch ->
                fyne.IsZero (Menu.Size ch s) = true ->
                activeChild (menus s (Parent (items s i))) <> Some ch ->
                ch <> Parent (items s i) ->
                Menu.Size ch s' = MenuMinSize e ch).
Proof.
  unfold menuItem.MouseIn, menuItem.activateChild.
  set (s0 := set_item i (with_hovered true) s).
  assert (E : items s0 i = with_hovered true (items s i)).
  { unfold s0, set_item; cbn. apply fn_lookup_insert. }
  rewrite E. cbn [child Parent with_hovered].
  set (p := Parent (items s i)).
  destruct (child (items s i)) as [ch|] eqn:Hch.
  - set (s1 := Menu.DeactivateChild ch s0).
    assert (G1 : forall m, Menu.Size m s1 = Menu.Size m s /\
                           Menu.Position m s1 = Menu.Position m s).
    { intros m. apply (Size_DeactivateChild ch s0 m). }
    destruct (decide (activeChild (menus s1 p) = Some ch)) as [Hact|Hact].
    + cbn [mbind option_bind]. eexists. split; [reflexivity|].
      split; [intros m _; apply G1|]. split; [intros c _ _; apply G1|].
      intros c [= <-] _ Hna Hne. exfalso. apply Hna.
      rewrite <- Hact. unfold s1. rewrite active_DeactivateChild.
      now destruct (decide (ch = p)).
    + set (s2 := Menu.DeactivateChild p s1).
      assert (G2 : forall m, Menu.Size m s2 = Menu.Size m s /\
                             Menu.Position m s2 = Menu.Position m s).
      { intros m. unfold s2.
        destruct (Size_DeactivateChild p s1 m) as [-> ->]. apply G1. }
      assert (Hch2 : child (items s2 i) = Some ch).
      { unfold s2, s1. rewrite !items_DeactivateChild. now rewrite E. }
      destruct (place_child_geometry e i ch s2 Hch2) as (s3 & -> & Go & Gnz & Gz).
      cbn [mbind option_bind]. eexists. split; [reflexivity|].
      assert (G4 : forall m,
                 Menu.Size m (menuItem.Refresh i
                    (Menu.Show ch (set_menu p (with_activeChild (Some ch)) s3)))
                 = Menu.Size m s3 /\
                 Menu.Position m (menuItem.Refresh i
                    (Menu.Show ch (set_menu p (with_activeChild (Some ch)) s3)))
                 = Menu.Position m s3).
      { intros m. apply (Size_activate p ch s3 m). }
      split; [|split].
      * intros m Hm. assert (Hne : ch <> m) by congruence.
        destruct (G4 m) as [-> ->]. destruct (Go m Hne) as [-> ->]. apply G2.
      * intros c [= <-] Hnz. destruct (G4 ch) as [-> ->].
        rewrite Gnz; [apply G2|]. destruct (G2 ch) as [-> _]. exact Hnz.
      * intros c [= <-] Hz _ _. destruct (G4 ch) as [-> _].
        apply Gz. destruct (G2 ch) as [-> _]. exact Hz.
  - assert (G : forall m, Menu.Size m (Menu.DeactivateChild p s0) = Menu.Size m s /\
                          Menu.Position m (Menu.DeactivateChild p s0) = Menu.Position m s).
    { intros m. apply (Size_DeactivateChild p s0 m). }
    destruct (decide (activeChild (menus s0 p) = None));
      cbn [mbind option_bind]; eexists; (split; [reflexivity|]);
      (split; [|split; intros c Hc; discriminate]).
    + intros m _. now split.
    + intros m _. apply G.
Qed.

(** ** Hovering the same item again *)

(** [activateChild] always succeeds and changes neither the items nor
    the trace. *)
Lemma activateChild_total e i s :
  exists s',
    menuItem.activateChild e i s = Some s' /\
    items s' = items s /\ trace s' = trace s.
Proof.
  unfold menuItem.activateChild.
  set (s1 := match child (items s i) with
             | Some ch => Menu.DeactivateChild ch s
             | None => s
             end).
  assert (Hi1 : items s1 = items s).
  { unfold s1. destruct (child (items s i)); [apply items_DeactivateChild|reflexivity]. }
  assert (Ht1 : trace s1 = trace s).
  { unfold s1. destruct (child (items s i)); [apply trace_DeactivateChild|reflexivity]. }
  destruct (decide (activeChild (menus s1 (Parent (items s i))) = child (items s i))).
  { exists s1. now repeat split. }
  set (s2 := Menu.DeactivateChild (Parent (items s i)) s1).
  assert (Hi2 : items s2 = items s).
  { unfold s2. now rewrite items_DeactivateChild. }
  assert (Ht2 : trace s2 = trace s).
  { unfold s2. now rewrite trace_DeactivateChild. }
  destruct (child (items s i)) as [ch|] eqn:Hch.
  - assert (Hch2 : child (items s2 i) = Some ch) by now rewrite Hi2.
    destruct (place_child e i ch s2 Hch2) as (s3 & -> & Hi3 & Ht3 & _).
    cbn [mbind option_bind]. eexists. split; [reflexivity|].
    split; cbn; congruence.
  - exists s2. now repeat split.
Qed.

(** After [activateChild] on an item with the submenu [ch], [ch] has no
    active child of its own. *)
Lemma activateChild_inner e i s ch s' :
  child (items s i) = Some ch ->
  ch <> Parent (items s i) ->
  menuItem.activateChild e i s = Some s' ->
  activeChild (menus s' ch) = None.
Proof.
  intros Hch Hne. unfold menuItem.activateChild. rewrite Hch.
  set (p := Parent (items s i)) in *.
  set (s1 := Menu.DeactivateChild ch s).
  assert (H1 : activeChild (menus s1 ch) = None).
  { unfold s1. rewrite active_DeactivateChild. now destruct (decide (ch = ch)). }
  destruct (decide (activeChild (menus s1 p) = Some ch)).
  { now intros [= <-]. }
  set (s2 := Menu.DeactivateChild p s1).
  assert (H2 : activeChild (menus s2 ch) = None).
  { unfold s2. rewrite active_DeactivateChild.
    destruct (decide (p = ch)); [reflexivity|exact H1]. }
  assert (Hch2 : child (items s2 i) = Some ch).
  { unfold s2, s1. now rewrite !items_DeactivateChild. }
  destruct (place_child e i ch s2 Hch2) as (s3 & -> & _ & _ & _ & Ha3).
  cbn [mbind option_bind]. intros [= <-].
  unfold Menu.Show. rewrite active_with_mBase, active_set_active.
  destruct (decide (p = ch)); [congruence|]. now rewrite Ha3.
Qed.





(** ** The background of a menu item *)

(** X6: on a desktop, once the pointer has entered an item whose submenu
    was not open, the background of the item is the hover colour, and it
    still is after the pointer has left, because the submenu stays open;
    on a touch device the background is transparent in both states. *)
Theorem BackgroundColor_open_submenu (e : Env) (r : menuItemRenderer.renderer)
    (ch : loc) (s : Store) :
  let i := menuItemRenderer.i r in
  child (items s i) = Some ch ->
  ch <> Parent (items s i) ->
  activeChild (menus s (Parent (items s i))) <> Some ch ->
  exists s1,
    menuItem.MouseIn e i s = Some s1 /\
    let c := if IsMobile e then Transparent else HoverColor (theme e) in
    menuItemRenderer.BackgroundColor e r s1 = c /\
    menuItemRenderer.BackgroundColor e r (menuItem.MouseOut i s1) = c.
Proof.
  intros i Hch Hne Hact.
  destruct (MouseIn_switches e i s ch Hch Hne Hact) as (s1 & E1 & _ & Hv & _).
  exists s1. split; [exact E1|].
  assert (Hc1 : child (items s1 i) = Some ch).
  { revert E1. unfold menuItem.MouseIn.
    destruct (activateChild_total e i (set_item i (with_hovered true) s))
      as (s' & -> & Hi & _).
    cbn [mbind option_bind]. intros [= <-]. cbn [menuItem.Refresh log items].
    rewrite Hi. unfold set_item; cbn. rewrite fn_lookup_insert. exact Hch. }
  unfold menuItemRenderer.BackgroundColor. fold i.
  destruct (IsMobile e); cbn [negb andb]; [now split|].
  split.
  - rewrite Hc1, Hv. now rewrite orb_true_r.
  - assert (Hc2 : child (items (menuItem.MouseOut i s1) i) = Some ch).
    { unfold menuItem.MouseOut, set_item; cbn. rewrite fn_lookup_insert. exact Hc1. }
    rewrite Hc2.
    change (Menu.Visible ch (menuItem.MouseOut i s1)) with (Menu.Visible ch s1).
    rewrite Hv. now rewrite orb_true_r.
Qed.

Lemma BackgroundColor_open_submenu_witness :
  exists s1,
    menuItem.MouseIn desktopEnv 1%nat twoSubmenus = Some s1 /\
    menuItemRenderer.BackgroundColor desktopEnv
      (fst (menuItemRenderer.CreateRenderer desktopEnv 1%nat 9%nat twoSubmenus)) s1
    = HoverColor sampleTheme /\
    menuItemRenderer.BackgroundColor desktopEnv
      (fst (menuItemRenderer.CreateRenderer desktopEnv 1%nat 9%nat twoSubmenus))
      (menuItem.MouseOut 1%nat s1)
    = HoverColor sampleTheme.
Proof.
  apply (BackgroundColor_open_submenu desktopEnv
           (fst (menuItemRenderer.CreateRenderer desktopEnv 1%nat 9%nat twoSubmenus))
           2%nat twoSubmenus);
    first [reflexivity | discriminate].
Defined.

(** ** Any sequence of events *)

Lemma same_structure_set_hovered i h s : same_structure s (set_item i (with_hovered h) s).
Proof.
  intros j. unfold set_item; cbn. unfold insert, fn_insert.
  now destruct (decide (i = j)) as [<-|].
Qed.

Lemma same_structure_items s s' : items s' = items s -> same_structure s s'.
Proof. intros E j. now rewrite E. Qed.

Lemma same_structure_trans s1 s2 s3 :
  same_structure s1 s2 -> same_structure s2 s3 -> same_structure s1 s3.
Proof.
  intros H12 H23 j. destruct (H12 j) as (? & ? & ? & ?), (H23 j) as (? & ? & ? & ?).
  repeat split; congruence.
Qed.

Lemma MouseIn_total e i s :
  exists s', menuItem.MouseIn e i s = Some s' /\ same_structure s s'.
Proof.
  unfold menuItem.MouseIn.
  destruct (activateChild_total e i (set_item i (with_hovered true) s))
    as (s' & -> & Hi & _).
  cbn [mbind option_bind]. eexists. split; [reflexivity|].
  eapply same_structure_trans; [apply (same_structure_set_hovered i true)|].
  now apply same_structure_items.
Qed.

Lemma handle_total e ev s :
  exists s', handle e ev s = Some s' /\ same_structure s s'.
Proof.
  destruct ev as [i|i|i]; cbn [handle].
  - apply MouseIn_total.
  - eexists. split; [reflexivity|]. apply (same_structure_set_hovered i false).
  - unfold menuItem.Tapped.
    destruct (fyne.Action (Item (items s i))).
    + eexists. split; [reflexivity|]. now apply same_structure_items.
    + destruct (IsMobile e).
      * destruct (activateChild_total e i s) as (s' & -> & Hi & _).
        cbn [mbind option_bind]. eexists. split; [reflexivity|].
        now apply same_structure_items.
      * eexists. split; [reflexivity|]. now apply same_structure_items.
Qed.


Lemma plain_event_of_structure m s s' ev :
  same_structure s s' -> plain_event_of m s ev -> plain_event_of m s' ev.
Proof.
  intros Hs. destruct ev as [i|i|i]; cbn;
    destruct (Hs i) as (Hp & _ & Hi & _); rewrite ?Hp, ?Hi; auto.
Qed.

Lemma handle_plain_inv e m ev s :
  visible_is_active m s ->
  plain_event_of m s ev ->
  exists s',
    handle e ev s = Some s' /\ visible_is_active m s' /\ same_structure s s'.
Proof.
  intros Inv Hev.
  destruct (handle_total e ev s) as (s' & E & Hs).
  exists s'. split; [exact E|]. split; [|exact Hs].
  destruct ev as [i|i|i]; cbn [handle plain_event_of] in *.
  - destruct (MouseIn_inv e i s m Hev Inv) as (s'' & E'' & Inv'' & _).
    rewrite E'' in E. now injection E as <-.
  - injection E as <-. intros c Hc Hv. apply Inv; [|exact Hv].
    unfold menuItem.MouseOut in Hc.
    apply (child_of_items m (set_item i (with_hovered false) s)) in Hc; [|reflexivity].
    now apply child_of_set_hovered in Hc.
  - destruct Hev as [Hp Ha]. unfold menuItem.Tapped in E. rewrite Ha in E.
    destruct (IsMobile e).
    + destruct (activateChild_inv e i s m Hp Inv) as (s'' & E'' & Hi & _ & Inv'').
      rewrite E'' in E. cbn [mbind option_bind] in E. injection E as <-.
      intros c Hc Hv. apply Inv''; [|exact Hv].
      apply (child_of_items m s'') in Hc; [exact Hc|reflexivity].
    + now injection E as <-.
Qed.

(** X8: starting from a state of the menu [m] in which every visible
    submenu of its items is its active child, every sequence of
    pointer-enter and pointer-exit events and of taps on items without
    action, all on items of [m], on any device, runs to a state in which
    at most one submenu of the items of [m] is visible. *)
Theorem events_at_most_one_visible (e : Env) (m : loc) (evs : list Event) (s : Store) :
  visible_is_active m s ->
  Forall (plain_event_of m s) evs ->
  exists s',
    run e evs s = Some s' /\
    at_most_one_visible m s' /\
    visible_is_active m s'.
Proof.
  revert s. induction evs as [|ev evs IH]; intros s Inv Hall.
  - exists s. split; [reflexivity|]. split; [now apply visible_is_active_one|exact Inv].
  - inversion_clear Hall as [|? ? Hev Hrest].
    destruct (handle_plain_inv e m ev s Inv Hev) as (s1 & E1 & Inv1 & Hs).
    destruct (IH s1 Inv1) as (s' & E' & Hone & Inv').
    { eapply Forall_impl; [|exact Hrest]. cbn. intros ev'.
      now apply plain_event_of_structure. }
    exists s'. split; [|now split].
    cbn [run]. rewrite E1. exact E'.
Qed.

Lemma events_at_most_one_visible_witness :
  exists s',
    run mobileEnv [EvTapped 1%nat; EvMouseOut 1%nat; EvTapped 3%nat; EvMouseIn 1%nat]
      twoSubmenus = Some s' /\
    at_most_one_visible 0%nat s' /\
    visible_is_active 0%nat s'.
Proof.
  apply (events_at_most_one_visible mobileEnv 0%nat
           [EvTapped 1%nat; EvMouseOut 1%nat; EvTapped 3%nat; EvMouseIn 1%nat]
           twoSubmenus).
  - apply children_hidden_active, twoSubmenus_hidden.
  - repeat constructor.
Defined.

(** ** Creating the renderer of a menu item *)

(** X9: [CreateRenderer] makes the submenu widget of an item at most once:
    a second call, whatever address the allocator would use, returns the
    same renderer as the first and leaves the store as the first left it.
    The first call changes no item but its own and no menu but the new
    one. *)
Theorem CreateRenderer_once (e : Env) (i fresh fresh' : loc) (s : Store) :
  let s1 := snd (menuItemRenderer.CreateRenderer e i fresh s) in
  menuItemRenderer.CreateRenderer e i fresh' s1
  = menuItemRenderer.CreateRenderer e i fresh s /\
  (forall j, j <> i -> items s1 j = items s j) /\
  (forall m, m <> fresh -> menus s1 m = menus s m) /\
  trace s1 = trace s.
Proof.
  cbv zeta.
  destruct (fyne.ChildMenu (Item (items s i))) as [cm|] eqn:Hcm.
  - destruct (child (items s i)) as [ch|] eqn:Hch.
    + assert (E : snd (menuItemRenderer.CreateRenderer e i fresh s) = s).
      { unfold menuItemRenderer.CreateRenderer. now rewrite Hcm, Hch. }
      rewrite E. split; [|now repeat split].
      unfold menuItemRenderer.CreateRenderer. now rewrite Hcm, Hch.
    + set (s0 := set_menu fresh (with_DismissAction (Some (Parent (items s i))))
                   (Menu.Hide fresh (Menu.NewMenu fresh s))).
      assert (E : menuItemRenderer.CreateRenderer e i fresh s
                  = (menuItemRenderer.mkRenderer [ObjText; ObjIcon; ObjMenu fresh] i
                       (Some menuItemRenderer.NewImageFromResource) 0 (fyne.NewSize 0 0)
                       (menuItemRenderer.NewText e (fyne.Label (Item (items s i)))
                          (TextColor (theme e))),
                     set_item i (with_child (Some fresh)) s0)).
      { unfold menuItemRenderer.CreateRenderer. rewrite Hcm, Hch.
        fold s0. unfold set_item at 1. cbn [items].
        now rewrite fn_lookup_insert. }
      rewrite E. cbn [snd].
      assert (Ei : items (set_item i (with_child (Some fresh)) s0) i
                   = with_child (Some fresh) (items s i)).
      { unfold set_item. cbn [items]. now rewrite fn_lookup_insert. }
      split; [|split; [|split; [|reflexivity]]].
      * unfold menuItemRenderer.CreateRenderer. rewrite Ei.
        cbn [Item child with_child]. rewrite Hcm, Ei.
        reflexivity.
      * intros j Hj. unfold set_item. cbn [items].
        now rewrite fn_lookup_insert_ne by congruence.
      * intros m Hm. unfold set_item, s0, Menu.Hide, Menu.NewMenu. cbn [menus].
        rewrite !menus_set_menu.
        destruct (decide (fresh = m)); [congruence|reflexivity].
  - assert (E : snd (menuItemRenderer.CreateRenderer e i fresh s) = s).
    { unfold menuItemRenderer.CreateRenderer. now rewrite Hcm. }
    rewrite E. split; [|now repeat split].
    unfold menuItemRenderer.CreateRenderer. now rewrite Hcm.
Qed.

Lemma newItemStore_childless m : forall c, ~ child_of m newItemStore c.
Proof.
  intros c (j & _ & Hc). revert Hc.
  unfold newItemStore, newMenuItem, set_item. cbn [items].
  destruct (decide (1%nat = j)) as [<-|n].
  - rewrite fn_lookup_insert. discriminate.
  - rewrite fn_lookup_insert_ne by exact n. discriminate.
Qed.

(** X10: [CreateRenderer] keeps "every visible submenu of an item of [m]
    is the active child of [m]", the state from which at most one submenu
    is ever visible, as long as the new submenu widget is not allocated at
    the address of [m]: the submenu it makes is hidden. *)
Theorem CreateRenderer_keeps_invariant (e : Env) (i fresh m : loc) (s : Store) :
  fresh <> m ->
  visible_is_active m s ->
  visible_is_active m (snd (menuItemRenderer.CreateRenderer e i fresh s)).
Proof.
  intros Hne Inv. unfold menuItemRenderer.CreateRenderer.
  destruct (fyne.ChildMenu (Item (items s i))) as [cm|]; [|exact Inv].
  destruct (child (items s i)) as [ch|] eqn:Hch; [exact Inv|].
  cbn [snd].
  set (s1 := set_menu fresh (with_DismissAction (Some (Parent (items s i))))
               (Menu.Hide fresh (Menu.NewMenu fresh s))).
  assert (Hv : forall c, Menu.Visible c s1
                         = if decide (fresh = c) then false else Menu.Visible c s).
  { intros c. unfold s1, Menu.Visible, Menu.Hide, Menu.NewMenu.
    rewrite !menus_set_menu. destruct (decide (fresh = c)) as [<-|]; [|reflexivity].
    now destruct (decide (fresh = fresh)). }
  assert (Ha : activeChild (menus s1 m) = activeChild (menus s m)).
  { unfold s1, Menu.Hide, Menu.NewMenu. rewrite !menus_set_menu.
    destruct (decide (fresh = m)); [congruence|reflexivity]. }
  intros c (j & Hp & Hc) Hvis.
  change (Menu.Visible c s1 = true) in Hvis. rewrite Hv in Hvis.
  destruct (decide (fresh = c)) as [|Hfc]; [discriminate|].
  change (activeChild (menus s1 m) = Some c). rewrite Ha.
  apply Inv; [|exact Hvis].
  exists j. revert Hp Hc. unfold set_item; cbn [items].
  change (items s1) with (items s).
  destruct (decide (i = j)) as [<-|n].
  - rewrite fn_lookup_insert. cbn. intros _ [= ?]. congruence.
  - rewrite fn_lookup_insert_ne by exact n. auto.
Qed.

(** The item just made gets its submenu widget at the address 2: hidden,
    so the invariant holds. *)
Lemma CreateRenderer_keeps_invariant_witness :
  visible_is_active 0%nat
    (snd (menuItemRenderer.CreateRenderer desktopEnv 1%nat 2%nat newItemStore)).
Proof.
  apply (CreateRenderer_keeps_invariant desktopEnv 1%nat 2%nat 0%nat newItemStore).
  - discriminate.
  - intros c Hc. now apply newItemStore_childless in Hc.
Defined.

Example CreateRenderer_newItem :
  let s := snd (menuItemRenderer.CreateRenderer desktopEnv 1%nat 2%nat newItemStore) in
  child (items s 1%nat) = Some 2%nat /\ Menu.Visible 2%nat s = false /\
  DismissAction (menus s 2%nat) = Some 0%nat.
Proof. repeat split. Qed.

(** ** Layout and the minimum size *)

(** X11: [Layout] brings the text to the text size and colour of the
    theme and to the size measured for it, and the icon, if there is one,
    to the inline icon size; it touches neither the stored minimum size nor
    [lastThemePadding]; laying out again with the same theme and size
    changes nothing more.  After it, the cache test of [MinSize] is true
    exactly when a minimum size is stored and [lastThemePadding] equals
    the padding of the theme. *)
Theorem Layout_syncs_with_theme (e : Env) (r : menuItemRenderer.renderer)
    (size : fyne.Size) :
  let r' := fst (menuItemRenderer.Layout e r size) in
  Text_TextSize (menuItemRenderer.text r') = TextSize (theme e) /\
  Text_Color (menuItemRenderer.text r') = TextColor (theme e) /\
  Text_size (menuItemRenderer.text r')
  = RenderedTextSize e (Text_Text (menuItemRenderer.text r)) (TextSize (theme e)) /\
  match menuItemRenderer.icon r, menuItemRenderer.icon r' with
  | Some _, Some ic =>
      Image_size ic = fyne.NewSize (IconInlineSize (theme e)) (IconInlineSize (theme e))
  | None, None => True
  | _, _ => False
  end /\
  menuItemRenderer.minSize r' = menuItemRenderer.minSize r /\
  menuItemRenderer.lastThemePadding r' = menuItemRenderer.lastThemePadding r /\
  fst (menuItemRenderer.Layout e r' size) = r' /\
  menuItemRenderer.minSizeUnchanged e r'
  = negb (fyne.IsZero (menuItemRenderer.minSize r)) &&
    (menuItemRenderer.lastThemePadding r =? Padding (theme e)).
Proof.
  unfold menuItemRenderer.Layout, menuItemRenderer.minSizeUnchanged,
    menuItemRenderer.TextMinSize.
  cbn. destruct (menuItemRenderer.icon r); cbn; rewrite ?Z.eqb_refl;
    rewrite ?andb_true_r; repeat split.
Qed.

Lemma rendererStep_lastThemePadding r c :
  menuItemRenderer.lastThemePadding (rendererStep r c)
  = menuItemRenderer.lastThemePadding r.
Proof.
  destruct c as [e size|e]; cbn [rendererStep].
  - apply Layout_lastThemePadding.
  - apply MinSize_lastThemePadding.
Qed.

Lemma rendererRun_lastThemePadding cs r :
  menuItemRenderer.lastThemePadding (rendererRun cs r)
  = menuItemRenderer.lastThemePadding r.
Proof.
  revert r. induction cs as [|c cs IH]; intros r; [reflexivity|].
  cbn [rendererRun fold_left]. fold (rendererRun cs (rendererStep r c)).
  now rewrite IH, rendererStep_lastThemePadding.
Qed.

(** X12: whatever calls of [Layout] and [MinSize] a renderer made by
    [CreateRenderer] has seen, under whatever themes, a call of [MinSize]
    that returns the stored size without measuring the text happens only
    under a theme whose padding is zero. *)
Theorem MinSize_cached_only_without_padding (e0 e : Env) (i fresh : loc) (s : Store)
    (cs : list RendererCall) :
  let r := rendererRun cs (fst (menuItemRenderer.CreateRenderer e0 i fresh s)) in
  snd (menuItemRenderer.MinSize e r) = [] ->
  Padding (theme e) = 0.
Proof.
  intros r Hhit.
  assert (Hp : menuItemRenderer.lastThemePadding r = 0).
  { unfold r. now rewrite rendererRun_lastThemePadding, CreateRenderer_lastThemePadding. }
  destruct (Z.eq_dec (Padding (theme e)) 0) as [|Hne]; [assumption|].
  rewrite MinSize_computed in Hhit; [discriminate|].
  apply MinSize_theme_changed. right; right. congruence.
Qed.

(** Under the theme without padding the second call of [MinSize] does
    return the stored size. *)
Lemma MinSize_cached_only_without_padding_witness :
  snd (menuItemRenderer.MinSize flatEnv
         (rendererRun [CallLayout flatEnv (fyne.NewSize 50 18); CallMinSize flatEnv]
            (fst (menuItemRenderer.CreateRenderer desktopEnv 5%nat 9%nat twoSubmenus))))
  = [] /\
  Padding (theme flatEnv) = 0.
Proof.
  split; [reflexivity|].
  apply (MinSize_cached_only_without_padding desktopEnv flatEnv 5%nat 9%nat twoSubmenus
           [CallLayout flatEnv (fyne.NewSize 50 18); CallMinSize flatEnv]).
  reflexivity.
Defined.

(** ** A tap and the tap animation *)



(** ** The menu bar, built *)

Lemma buildMenuBar_from (c : loc) (menus : list fyne.Menu) (acc : list menuBarAction) :
  fold_left (fun items m => items ++ [newMenuBarAction m c]) menus acc
  = acc ++ map (fun m => newMenuBarAction m c) menus.
Proof.
  revert acc. induction menus as [|m menus IH]; intros acc; cbn.
  - now rewrite app_nil_r.
  - rewrite IH. now rewrite <- app_assoc.
Qed.

(** X14: [buildMenuBar] makes one action for each menu of the main menu,
    in the order of the menus (none for an empty main menu); the action at
    the place of a menu carries its label, and a tap on the button of that
    action, put at [p] with the size [sz], shows the items of that menu on
    the canvas of the window at [p] plus [(0, height of sz)]. *)
Theorem buildMenuBar_actions (menus : list fyne.Menu) (c : loc) :
  length (buildMenuBar menus c) = length menus /\
  forall (k : nat) (m : fyne.Menu),
    nth_error menus k = Some m ->
    exists a,
      nth_error (buildMenuBar menus c) k = Some a /\
      Label a = fyne.MLabel m /\
      Button.Text (ToolbarObject a) = fyne.MLabel m /\
      forall p sz,
        snd (Button.Tapped (Button.Resize sz (Button.Move p (ToolbarObject a))))
        = [Refresh;
           PoppedUp (mkPopUpMenu (fyne.NewMenu "" (fyne.Items m)) c
                       (fyne.PosAdd p (fyne.NewPos 0 (fyne.Height sz))))].
Proof.
  unfold buildMenuBar. rewrite buildMenuBar_from. cbn [app].
  split; [apply length_map|].
  intros k m Hk. exists (newMenuBarAction m c).
  split; [|now repeat split].
  rewrite nth_error_map, Hk. reflexivity.
Qed.

Lemma buildMenuBar_actions_witness :
  exists a,
    nth_error (buildMenuBar mainMenu 0%nat) 1 = Some a /\
    Label a = "Help"%string /\
    Button.Text (ToolbarObject a) = "Help"%string /\
    forall p sz,
      snd (Button.Tapped (Button.Resize sz (Button.Move p (ToolbarObject a))))
      = [Refresh;
         PoppedUp (mkPopUpMenu
                     (fyne.NewMenu "" [fyne.mkMenuItem "About" (Some 3%nat) None]) 0%nat
                     (fyne.PosAdd p (fyne.NewPos 0 (fyne.Height sz))))].
Proof.
  destruct (buildMenuBar_actions mainMenu 0%nat) as [_ Hk].
  apply (Hk 1%nat (fyne.mkMenu "Help" [fyne.mkMenuItem "About" (Some 3%nat) None])).
  reflexivity.
Defined.

(** ** A change of the text size of the theme *)

(** X15: [MinSize] never writes the text size of the renderer: when the
    text size of the theme differs from it, the call measures the text at
    the old text size of the renderer, and the next call, under the same
    theme, computes again; only [Layout] brings the text size up to
    date. *)
Theorem MinSize_stale_text_size (e : Env) (r : menuItemRenderer.renderer) :
  Text_TextSize (menuItemRenderer.text r) <> TextSize (theme e) ->
  let r' := fst (fst (menuItemRenderer.MinSize e r)) in
  snd (menuItemRenderer.MinSize e r)
  = [MeasureText (Text_Text (menuItemRenderer.text r))
       (Text_TextSize (menuItemRenderer.text r))] /\
  menuItemRenderer.text r' = menuItemRenderer.text r /\
  menuItemRenderer.minSizeUnchanged e r' = false /\
  Text_TextSize (menuItemRenderer.text (fst (menuItemRenderer.Layout e r' (snd (fst (menuItemRenderer.MinSize e r))))))
  = TextSize (theme e).
Proof.
  intros Hne.
  assert (Hu : menuItemRenderer.minSizeUnchanged e r = false).
  { apply MinSize_theme_changed. now left. }
  cbv zeta. split; [now apply MinSize_computed|].
  unfold menuItemRenderer.MinSize. rewrite Hu. cbn [fst snd].
  split; [reflexivity|]. split; [|reflexivity].
  apply MinSize_theme_changed. now left.
Qed.

Lemma MinSize_stale_text_size_witness :
  snd (menuItemRenderer.MinSize flatEnv
         (menuItemRenderer.mkRenderer [ObjText] 5%nat None 0 (fyne.NewSize 0 0)
            (mkText "quit" 12 Transparent (fyne.NewSize 0 0) (fyne.NewPos 0 0))))
  = [MeasureText "quit" 12].
Proof.
  apply (MinSize_stale_text_size flatEnv
           (menuItemRenderer.mkRenderer [ObjText] 5%nat None 0 (fyne.NewSize 0 0)
              (mkText "quit" 12 Transparent (fyne.NewSize 0 0) (fyne.NewPos 0 0)))).
  discriminate.
Defined.

(** ** Where [Layout] puts the text and the icon *)

Lemma div2_double z : - 2 ^ 62 <= z <= 2 ^ 62 -> (2 * z) ./ 2 = z.
Proof.
  unfold int.div. intros Hz.
  replace (2 * z) with (z * 2) by lia.
  rewrite Z.quot_mul by lia. apply wrap_id. lia.
Qed.

(** X16: without wrap-around, [Layout] puts the text at twice the padding
    from the left and at the padding from the top, and the icon, if there
    is one, flush with the right edge of the item and, when the item is at
    least as high as the icon, vertically centred up to rounding. *)
Theorem Layout_positions (e : Env) (r : menuItemRenderer.renderer) (size : fyne.Size) :
  let pad := Padding (theme e) in
  let ico := IconInlineSize (theme e) in
  int.small pad -> int.small ico ->
  int.small (fyne.Width size) -> int.small (fyne.Height size) ->
  let r' := fst (menuItemRenderer.Layout e r size) in
  Text_pos (menuItemRenderer.text r') = fyne.NewPos (2 * pad) pad /\
  forall ic, menuItemRenderer.icon r' = Some ic ->
    fyne.X (Image_pos ic) + fyne.Width (Image_size ic) = fyne.Width size /\
    (ico <= fyne.Height size ->
     2 * fyne.Y (Image_pos ic) <= fyne.Height size - ico < 2 * fyne.Y (Image_pos ic) + 2).
Proof.
  intros pad ico Hp Hi Hw Hh. cbv zeta.
  unfold menuItemRenderer.Layout, menuItemRenderer.itemPadding. cbn.
  fold pad ico. unfold int.small in *.
  split.
  - unfold int.mul. rewrite !wrap_id by lia. f_equal.
    + replace (pad * 4) with (2 * (2 * pad)) by lia. apply div2_double. lia.
    + replace (pad * 2) with (2 * pad) by lia. apply div2_double. lia.
  - intros ic. destruct (menuItemRenderer.icon r); [|discriminate].
    intros [= <-]. cbn. unfold int.sub, int.div. rewrite !wrap_id by lia.
    split; [lia|]. intros Hle.
    pose proof (Z.quot_rem' (fyne.Height size - ico) 2) as Hq.
    pose proof (Z.rem_bound_pos (fyne.Height size - ico) 2) as Hr.
    assert (Hb : 0 <= (fyne.Height size - ico) ÷ 2 <= fyne.Height size - ico).
    { split; [apply Z.quot_pos; lia|]. apply Z.quot_le_upper_bound; lia. }
    repeat match goal with
           | |- context [int.wrap ?z] => rewrite (wrap_id z) by lia
           end.
    lia.
Qed.

(** The renderer of item 1, which has an icon, laid out at 86 by 26. *)
Lemma Layout_positions_witness :
  let r' := fst (menuItemRenderer.Layout desktopEnv
                   (fst (menuItemRenderer.CreateRenderer desktopEnv 1%nat 9%nat twoSubmenus))
                   (fyne.NewSize 86 26)) in
  Text_pos (menuItemRenderer.text r') = fyne.NewPos (2 * 4) 4 /\
  forall ic, menuItemRenderer.icon r' = Some ic ->
    fyne.X (Image_pos ic) + fyne.Width (Image_size ic) = 86 /\
    (20 <= 26 -> 2 * fyne.Y (Image_pos ic) <= 26 - 20 < 2 * fyne.Y (Image_pos ic) + 2).
Proof.
  apply (Layout_positions desktopEnv
           (fst (menuItemRenderer.CreateRenderer desktopEnv 1%nat 9%nat twoSubmenus))
           (fyne.NewSize 86 26));
    vm_compute; split; discriminate.
Defined.

Example Layout_item_1 :
  menuItemRenderer.icon
    (fst (menuItemRenderer.Layout desktopEnv
            (fst (menuItemRenderer.CreateRenderer desktopEnv 1%nat 9%nat twoSubmenus))
            (fyne.NewSize 86 26)))
  = Some (mkImage (fyne.NewSize 20 20) (fyne.NewPos 66 3)).
Proof. reflexivity. Qed.

(** ** The submenu of a submenu *)

(** X17: a pointer-enter on an item closes the open submenu of its own
    submenu: if the submenu [ch] of the item has the active child [g],
    then after the event [g] is hidden and [ch] has no active child.
    ([ch] is neither [g] nor the menu the item is in.) *)
Theorem MouseIn_closes_nested (e : Env) (i ch g : loc) (s : Store) :
  child (items s i) = Some ch ->
  activeChild (menus s ch) = Some g ->
  g <> ch ->
  ch <> Parent (items s i) ->
  exists s',
    menuItem.MouseIn e i s = Some s' /\
    Menu.Visible g s' = false /\
    activeChild (menus s' ch) = None.
Proof.
  intros Hch Hg Hgc Hne. unfold menuItem.MouseIn.
  set (s0 := set_item i (with_hovered true) s).
  assert (E : items s0 i = with_hovered true (items s i)).
  { unfold s0, set_item; cbn. apply fn_lookup_insert. }
  assert (Hc0 : child (items s0 i) = Some ch) by now rewrite E.
  assert (Hne0 : ch <> Parent (items s0 i)) by now rewrite E.
  destruct (activateChild_total e i s0) as (s' & Ea & _ & _).
  pose proof (activateChild_inner e i s0 ch s' Hc0 Hne0 Ea) as Hin.
  rewrite Ea. cbn [mbind option_bind]. eexists. split; [reflexivity|].
  split; [|exact Hin].
  change (Menu.Visible g s' = false).
  revert Ea. unfold menuItem.activateChild. rewrite Hc0.
  set (p := Parent (items s0 i)) in *.
  set (s1 := Menu.DeactivateChild ch s0).
  assert (H1 : Menu.Visible g s1 = false).
  { unfold s1. rewrite Visible_DeactivateChild.
    change (menus s0) with (menus s). now destruct (decide (activeChild (menus s ch) = Some g)). }
  destruct (decide (activeChild (menus s1 p) = Some ch)).
  { now intros [= <-]. }
  set (s2 := Menu.DeactivateChild p s1).
  assert (H2 : Menu.Visible g s2 = false).
  { unfold s2. rewrite Visible_DeactivateChild.
    now destruct (decide (activeChild (menus s1 p) = Some g)). }
  assert (Hch2 : child (items s2 i) = Some ch).
  { unfold s2, s1. now rewrite !items_DeactivateChild. }
  destruct (place_child e i ch s2 Hch2) as (s3 & -> & _ & _ & Hv3 & _).
  cbn [mbind option_bind]. intros [= <-].
  rewrite Visible_Show. destruct (decide (ch = g)); [congruence|].
  now rewrite Visible_set_active, Hv3.
Qed.

(** The submenu 2 of item 1 has an open submenu 4 of its own. *)
Lemma MouseIn_closes_nested_witness :
  exists s',
    menuItem.MouseIn desktopEnv 1%nat
      (Menu.Show 4%nat (set_menu 2%nat (with_activeChild (Some 4%nat)) submenuOpen))
    = Some s' /\
    Menu.Visible 4%nat s' = false /\
    activeChild (menus s' 2%nat) = None.
Proof.
  apply (MouseIn_closes_nested desktopEnv 1%nat 2%nat 4%nat
           (Menu.Show 4%nat (set_menu 2%nat (with_activeChild (Some 4%nat)) submenuOpen)));
    first [reflexivity | discriminate].
Defined.
